(** * The printipi event scheduler (code/firmware/src/scheduler.cpp)

    A shallow embedding of [Scheduler]: the event queue with its
    [orderedInsert], the PWM regeneration of [nextEvent], the back-pressure
    lock, [lastSchedTime], the exit-handler registry and [initSchedThread].

    Calls are atomic steps, one thread at a time.  A producer that finds the
    mutex held by the consumer has the outcome [Blocks]: in a history of
    completed calls it comes after the consumer has released the mutex.  The
    consumer that finds the queue empty waits inside [nextEvent]; what the
    producers do meanwhile is an argument of that call.  What a call does to
    the outside (the consumer's lock, the condition variable, the clock, the
    log, the exit handlers) is recorded in a trace of [Effect]s. *)

From stdpp Require Import base list strings.
From Stdlib Require Import ZArith NArith Lia.

(** ** Time *)

(** [struct timespec] of <time.h>. *)
Record timespec : Type := mkTimespec { tv_sec : Z; tv_nsec : Z }.

Definition NSEC_PER_SEC : Z := 1000000000.

(** Modelled from the spec: timeutil.h is not among the sources.  [a < b] on
    monotonic times, seconds first, then nanoseconds. *)
Definition timespecLt (a b : timespec) : bool :=
  (tv_sec a <? tv_sec b)%Z || ((tv_sec a =? tv_sec b)%Z && (tv_nsec a <? tv_nsec b)%Z).

(** Modelled from the spec: [a + ns], with the nanosecond field brought back
    into [0, 1e9). *)
Definition timespecAddNano (t : timespec) (ns : N) : timespec :=
  let n := (tv_nsec t + Z.of_N ns)%Z in
  {| tv_sec := (tv_sec t + n / NSEC_PER_SEC)%Z; tv_nsec := (n mod NSEC_PER_SEC)%Z |}.

(** The instant of a [timespec] in nanoseconds. *)
Definition toNanos (t : timespec) : Z := (tv_sec t * NSEC_PER_SEC + tv_nsec t)%Z.

(** ** Events and PWM parameters *)

Inductive StepDirection : Type := StepBackward | StepForward.

Definition AxisIdType : Type := N.

(** Modelled from the spec: event.h is not among the sources.  An event is a
    deadline, a channel and a direction. *)
Record Event : Type := mkEvent {
  time : timespec;
  stepperId : AxisIdType;
  direction : StepDirection
}.

(** Modelled from the spec: [Event::offsetNano], the deadline moved by [ns]. *)
Definition offsetNano (evt : Event) (ns : N) : Event :=
  {| time := timespecAddNano (time evt) ns;
     stepperId := stepperId evt;
     direction := direction evt |}.

(** Modelled from the spec: [Event::operator<], [a < b] iff
    [a.deadline < b.deadline]. *)
Definition Event_lt (a b : Event) : bool := timespecLt (time a) (time b).

(** Modelled from the spec: [PwmInfo] of scheduler.h, the two half-periods in
    nanoseconds. *)
Record PwmInfo : Type := mkPwmInfo { nsHigh : N; nsLow : N }.

(** ** Outcomes, effects and the monad of the model *)

Inductive LogLevel : Type := LogInfo | LogWarning | LogVerbose.

(** An exit handler, a pointer to a function without arguments or result,
    identified by its address. *)
Definition Handler : Type := N.

Inductive Effect : Type :=
| Log (lvl : LogLevel) (fmt : string) (args : list Z)
| CallHandler (h : Handler)        (* the handler is called *)
| LockPushes                       (* _lockPushes.lock() *)
| UnlockPushes                     (* _lockPushes.unlock() *)
| NotifyOne                        (* nonemptyCond.notify_one() *)
| Wait                             (* nonemptyCond.wait(_lockPushes) *)
| Insert (evt : Event)             (* a call of orderedInsert(evt) *)
| SleepUntil (t : timespec).       (* clock_nanosleep(..., TIMER_ABSTIME, &t, ...) *)

Inductive Outcome (A : Type) : Type :=
| Returns (a : A)          (* the call returns *)
| Throws (what : string)   (* a C++ exception leaves the call *)
| Blocks                   (* the call waits for another thread *)
| Undefined.               (* undefined behaviour *)
Arguments Returns {A} a.
Arguments Throws {A} what.
Arguments Blocks {A}.
Arguments Undefined {A}.

(** A computation over a state [S]: result, new state and the effects made. *)
Definition M (S A : Type) : Type := S → Outcome (A * S * list Effect).

#[global] Instance M_ret {S} : MRet (M S) := λ A a s, Returns (a, s, []).

#[global] Instance M_bind {S} : MBind (M S) := λ A B f m s,
  match m s with
  | Returns (a, s1, t1) =>
      match f a s1 with
      | Returns (b, s2, t2) => Returns (b, s2, t1 ++ t2)
      | Throws w => Throws w
      | Blocks => Blocks
      | Undefined => Undefined
      end
  | Throws w => Throws w
  | Blocks => Blocks
  | Undefined => Undefined
  end.

Definition get {S} : M S S := λ s, Returns (s, s, []).
Definition modify {S} (f : S → S) : M S unit := λ s, Returns (tt, f s, []).
Definition emit {S} (e : Effect) : M S unit := λ s, Returns (tt, s, [e]).
Definition throw {S A} (what : string) : M S A := λ _, Throws what.
Definition blocks {S A} : M S A := λ _, Blocks.
Definition undefined {S A} : M S A := λ _, Undefined.

(** [for (x : l) body(x)]. *)
Fixpoint forM_ {S A} (l : list A) (body : A → M S unit) : M S unit :=
  match l with
  | [] => mret tt
  | x :: l' => body x ;; forM_ l' body
  end.

(** ** std::push_heap *)

(** The sift-up of [std::push_heap] with [operator<]: the last element climbs
    while its parent is smaller. *)
Fixpoint siftUp (fuel : nat) (q : list Event) (i : nat) : list Event :=
  match fuel with
  | O => q
  | S fuel' =>
      match i with
      | O => q
      | S _ =>
          let p := ((i - 1) / 2)%nat in
          match q !! p, q !! i with
          | Some ep, Some ei =>
              if Event_lt ep ei then siftUp fuel' (<[p:=ei]> (<[i:=ep]> q)) p else q
          | _, _ => q
          end
      end
  end.

Definition push_heap (q : list Event) : list Event :=
  siftUp (length q) q (length q - 1).

(** ** The scheduler object *)

Record Scheduler : Type := mkScheduler {
  eventQueue : list Event;            (* deque: front is the head of the list *)
  pwmInfo : AxisIdType → PwmInfo;     (* the table of PWM parameters *)
  bufferSize : N;
  _lockPushes : bool;                 (* _lockPushes owns [mutex] *)
  _arePushesLocked : bool
}.

Definition set_eventQueue (q : list Event) (s : Scheduler) : Scheduler :=
  {| eventQueue := q; pwmInfo := pwmInfo s; bufferSize := bufferSize s;
     _lockPushes := _lockPushes s; _arePushesLocked := _arePushesLocked s |}.

Definition set_pwmInfo (idx : AxisIdType) (p : PwmInfo) (s : Scheduler) : Scheduler :=
  {| eventQueue := eventQueue s;
     pwmInfo := λ i, if (i =? idx)%N then p else pwmInfo s i;
     bufferSize := bufferSize s;
     _lockPushes := _lockPushes s; _arePushesLocked := _arePushesLocked s |}.

Definition set_bufferSize (n : N) (s : Scheduler) : Scheduler :=
  {| eventQueue := eventQueue s; pwmInfo := pwmInfo s; bufferSize := n;
     _lockPushes := _lockPushes s; _arePushesLocked := _arePushesLocked s |}.

Definition set_lockPushes (b : bool) (s : Scheduler) : Scheduler :=
  {| eventQueue := eventQueue s; pwmInfo := pwmInfo s; bufferSize := bufferSize s;
     _lockPushes := b; _arePushesLocked := _arePushesLocked s |}.

Definition set_arePushesLocked (b : bool) (s : Scheduler) : Scheduler :=
  {| eventQueue := eventQueue s; pwmInfo := pwmInfo s; bufferSize := bufferSize s;
     _lockPushes := _lockPushes s; _arePushesLocked := b |}.

(** [Scheduler::Scheduler()]: the lock is deferred, pushes are not locked and
    the buffer size is SCHED_CAPACITY (a constant of scheduler.h, taken as a
    parameter); every PWM slot starts with both half-periods zero. *)
Definition Scheduler_new (SCHED_CAPACITY : N) : Scheduler :=
  {| eventQueue := []; pwmInfo := λ _, mkPwmInfo 0 0; bufferSize := SCHED_CAPACITY;
     _lockPushes := false; _arePushesLocked := false |}.

(** [std::unique_lock::lock] on [_lockPushes]: an error if the lock is
    already owned. *)
Definition lockPushes_lock : M Scheduler unit :=
  s ← get;
  if _lockPushes s then throw "std::system_error: resource_deadlock_would_occur"
  else emit LockPushes ;; modify (set_lockPushes true).

(** [std::unique_lock::unlock] on [_lockPushes]: an error if the lock is not
    owned. *)
Definition lockPushes_unlock : M Scheduler unit :=
  s ← get;
  if _lockPushes s then emit UnlockPushes ;; modify (set_lockPushes false)
  else throw "std::system_error: operation_not_permitted".

(** [std::unique_lock<std::mutex> lock(this->mutex)] of a producer: it waits
    while the consumer owns the mutex; the lock is given back when the call
    ends. *)
Definition scopedLock : M Scheduler unit :=
  s ← get;
  if _lockPushes s then blocks else mret tt.

Definition orderedInsert (evt : Event) : M Scheduler unit :=
  emit (Insert evt) ;;
  modify (λ s, set_eventQueue (eventQueue s ++ [evt]) s) ;;
  s ← get;
  match last (eventQueue s) with
  | Some back =>
      if timespecLt (time evt) (time back)
      then modify (λ s, set_eventQueue (push_heap (eventQueue s)) s)
      else mret tt
  | None => undefined
  end.

Definition queue (evt : Event) : M Scheduler unit :=
  scopedLock ;;
  orderedInsert evt ;;
  emit NotifyOne.

(** [now] is what [timespecNow()] reads from the monotonic clock. *)
Definition schedPwm (idx : AxisIdType) (p : PwmInfo) (now : timespec) : M Scheduler unit :=
  s ← get;
  emit (Log LogVerbose "Scheduler::schedPwm: %i, %u, %u. Current: %u, %u\n"
          [Z.of_N idx; Z.of_N (nsHigh p); Z.of_N (nsLow p);
           Z.of_N (nsHigh (pwmInfo s idx)); Z.of_N (nsLow (pwmInfo s idx))]) ;;
  if negb (nsHigh (pwmInfo s idx) =? 0)%N && negb (nsLow (pwmInfo s idx) =? 0)%N
  then modify (set_pwmInfo idx p)
  else
    emit (Log LogVerbose "Scheduler::schedPwm: queueing\n" []) ;;
    modify (set_pwmInfo idx p) ;;
    queue (mkEvent now idx StepForward).

(** [now] is what [clock_gettime(CLOCK_MONOTONIC, ...)] reads. *)
Definition lastSchedTime (now : timespec) : M Scheduler timespec :=
  scopedLock ;;
  s ← get;
  if negb (length (eventQueue s) =? 0)%nat
  then match last (eventQueue s) with
       | Some evt => mret (time evt)
       | None => undefined
       end
  else mret now.

Definition setBufferSize (size : N) : M Scheduler unit :=
  modify (set_bufferSize size).

Definition getBufferSize : M Scheduler N :=
  s ← get; mret (bufferSize s).

(** *** The consumer and what producers do while it waits *)

(** The calls open to producer threads. *)
Inductive ProducerCall : Type :=
| CallQueue (evt : Event)
| CallSchedPwm (idx : AxisIdType) (p : PwmInfo) (now : timespec)
| CallLastSchedTime (now : timespec)
| CallSetBufferSize (size : N)
| CallGetBufferSize.

Inductive Reply : Type :=
| ReplyVoid
| ReplyEvent (evt : Event)
| ReplyTime (t : timespec)
| ReplySize (n : N).

Definition callProducer (c : ProducerCall) : M Scheduler Reply :=
  match c with
  | CallQueue evt => queue evt ;; mret ReplyVoid
  | CallSchedPwm idx p now => schedPwm idx p now ;; mret ReplyVoid
  | CallLastSchedTime now => t ← lastSchedTime now; mret (ReplyTime t)
  | CallSetBufferSize size => setBufferSize size ;; mret ReplyVoid
  | CallGetBufferSize => n ← getBufferSize; mret (ReplySize n)
  end.

(** Calls of producers one after the other; the replies go to the
    producers. *)
Fixpoint runProducers (cs : list ProducerCall) : M Scheduler unit :=
  match cs with
  | [] => mret tt
  | c :: cs' => callProducer c ;; runProducers cs'
  end.

(** [nonemptyCond.wait(_lockPushes)]: the mutex is released while the
    consumer waits, the calls [during] of the producers happen then, and the
    mutex is taken again before [wait] returns.  Waiting with a lock that is
    not owned is undefined behaviour. *)
Definition nonemptyCond_wait (during : list ProducerCall) : M Scheduler unit :=
  s ← get;
  if _lockPushes s then
    emit Wait ;;
    modify (set_lockPushes false) ;;
    runProducers during ;;
    modify (set_lockPushes true)
  else undefined.

(** [while (eventQueue.empty()) nonemptyCond.wait(_lockPushes)].  Each element
    of [wakeups] is one wake-up, with the producer calls made before it (none
    for a spurious wake-up); when the wake-ups run out on an empty queue the
    consumer is still waiting. *)
Fixpoint waitWhileEmpty (wakeups : list (list ProducerCall)) : M Scheduler unit :=
  s ← get;
  match eventQueue s with
  | _ :: _ => mret tt
  | [] =>
      match wakeups with
      | [] => blocks
      | during :: wakeups' => nonemptyCond_wait during ;; waitWhileEmpty wakeups'
      end
  end.

(** [wakeups] is what happens while the call waits for an event.  The reading
    of the clock into [curTime] is not used by the code and is left out. *)
Definition nextEvent (wakeups : list (list ProducerCall)) : M Scheduler Event :=
  s ← get;
  (if negb (_arePushesLocked s) then lockPushes_lock else mret tt) ;;
  waitWhileEmpty wakeups ;;
  s ← get;
  match eventQueue s with
  | [] => undefined                           (* front() of an empty deque *)
  | evt :: rest =>
      modify (set_eventQueue rest) ;;
      s ← get;
      match direction evt with
      | StepForward =>
          if negb (nsHigh (pwmInfo s (stepperId evt)) =? 0)%N
          then orderedInsert
                 (offsetNano (mkEvent (time evt) (stepperId evt) StepBackward)
                    (nsHigh (pwmInfo s (stepperId evt))))
          else mret tt
      | StepBackward =>
          if negb (nsLow (pwmInfo s (stepperId evt)) =? 0)%N
          then orderedInsert
                 (offsetNano (mkEvent (time evt) (stepperId evt) StepForward)
                    (nsLow (pwmInfo s (stepperId evt))))
          else mret tt
      end ;;
      s ← get;
      (if (N.of_nat (length (eventQueue s)) <? bufferSize s)%N
       then lockPushes_unlock ;; modify (set_arePushesLocked false)
       else modify (set_arePushesLocked true)) ;;
      emit (SleepUntil (time evt)) ;;
      mret evt
  end.

(** [ret] is what [pthread_setschedparam] returns. *)
Definition initSchedThread {S} (ret : Z) : M S unit :=
  if negb (ret =? 0)%Z
  then emit (Log LogWarning
               "Warning: pthread_setschedparam (increase thread priority) at scheduler.cpp returned non-zero: %i\n"
               [ret])
  else mret tt.

(** ** The exit handlers (static members of [Scheduler]) *)

Record ExitState : Type := mkExitState {
  exitHandlers : list (list Handler);   (* std::array of std::vector; one list per level *)
  isExiting : bool
}.

(** The static initialisation: SCHED_NUM_EXIT_HANDLER_LEVELS empty levels (a
    constant of scheduler.h, taken as a parameter), [isExiting(false)]. *)
Definition ExitState_new (SCHED_NUM_EXIT_HANDLER_LEVELS : nat) : ExitState :=
  {| exitHandlers := replicate SCHED_NUM_EXIT_HANDLER_LEVELS []; isExiting := false |}.

(** [isExiting.exchange(v)]: stores [v], gives the old value. *)
Definition isExiting_exchange (v : bool) : M ExitState bool :=
  st ← get;
  modify (λ st, {| exitHandlers := exitHandlers st; isExiting := v |}) ;;
  mret (isExiting st).

(** Calling a handler is recorded; what the handler does is outside the
    scheduler. *)
Definition callExitHandlers : M ExitState unit :=
  was ← isExiting_exchange true;
  if negb was then
    emit (Log LogInfo "Exiting\n" []) ;;
    st ← get;
    forM_ (exitHandlers st) (λ level,
      forM_ level (λ handler, emit (CallHandler handler)))
  else mret tt.

(** [exitHandlers[level]] of a [std::array] is not bounds-checked: an index
    past the end is undefined behaviour. *)
Definition registerExitHandler (handler : Handler) (level : N) : M ExitState unit :=
  st ← get;
  if (N.of_nat (length (exitHandlers st)) <? level)%N
  then throw "Tried to register an exit handler at too high of a level"
  else
    match exitHandlers st !! N.to_nat level with
    | Some v =>
        modify (λ st, {| exitHandlers := <[N.to_nat level := v ++ [handler]]> (exitHandlers st);
                         isExiting := isExiting st |})
    | None => undefined
    end.

(** Registrations one after the other. *)
Fixpoint registerAll (regs : list (Handler * N)) : M ExitState unit :=
  match regs with
  | [] => mret tt
  | (handler, level) :: regs' => registerExitHandler handler level ;; registerAll regs'
  end.

(** ** Histories of calls on one scheduler *)

Inductive Call : Type :=
| Producer (c : ProducerCall)
| CallNextEvent (wakeups : list (list ProducerCall)).

Definition call (c : Call) : M Scheduler Reply :=
  match c with
  | Producer c => callProducer c
  | CallNextEvent wakeups => evt ← nextEvent wakeups; mret (ReplyEvent evt)
  end.

(** The calls of a history in order, with their replies. *)
Fixpoint run (cs : list Call) : M Scheduler (list Reply) :=
  match cs with
  | [] => mret []
  | c :: cs' => r ← call c; rs ← run cs'; mret (r :: rs)
  end.

(** The events handed out by [nextEvent], in order. *)
Fixpoint returnedEvents (rs : list Reply) : list Event :=
  match rs with
  | [] => []
  | ReplyEvent evt :: rs' => evt :: returnedEvents rs'
  | _ :: rs' => returnedEvents rs'
  end.

(** The events given to [orderedInsert], in order. *)
Fixpoint insertsOf (tr : list Effect) : list Event :=
  match tr with
  | [] => []
  | Insert evt :: tr' => evt :: insertsOf tr'
  | _ :: tr' => insertsOf tr'
  end.

(** The [lock]/[unlock] calls on [_lockPushes], in order. *)
Fixpoint lockOpsOf (tr : list Effect) : list Effect :=
  match tr with
  | [] => []
  | LockPushes :: tr' => LockPushes :: lockOpsOf tr'
  | UnlockPushes :: tr' => UnlockPushes :: lockOpsOf tr'
  | _ :: tr' => lockOpsOf tr'
  end.

(** The handlers called, in order. *)
Fixpoint handlersCalled (tr : list Effect) : list Handler :=
  match tr with
  | [] => []
  | CallHandler h :: tr' => h :: handlersCalled tr'
  | _ :: tr' => handlersCalled tr'
  end.

(** Deadlines never go down along the list. *)
Fixpoint deadlinesNonDecreasing (l : list Event) : bool :=
  match l with
  | [] => true
  | a :: l' =>
      match l' with
      | [] => true
      | b :: _ => negb (timespecLt (time b) (time a)) && deadlinesNonDecreasing l'
      end
  end.

(** The largest deadline among the events of a queue, if it has any. *)
Definition largestDeadline (q : list Event) : option timespec :=
  match q with
  | [] => None
  | e :: q' => Some (foldl (λ m e', if timespecLt m (time e') then time e' else m) (time e) q')
  end.

(** ** Notions used in the statements *)

(** The consumer's flag agrees with the ownership of the mutex. *)
Definition lockConsistent (s : Scheduler) : Prop :=
  _lockPushes s = _arePushesLocked s.

(** A channel is active when both its half-periods are non-zero. *)
Definition isActive (s : Scheduler) (idx : AxisIdType) : Prop :=
  nsHigh (pwmInfo s idx) ≠ 0%N ∧ nsLow (pwmInfo s idx) ≠ 0%N.

(** What a producer call leaves untouched, and what it adds to the queue. *)
Definition producerStep (s s' : Scheduler) (tr : list Effect) : Prop :=
  eventQueue s' = eventQueue s ++ insertsOf tr
  ∧ _lockPushes s' = _lockPushes s
  ∧ _arePushesLocked s' = _arePushesLocked s
  ∧ lockOpsOf tr = [].

(** The complementary edge that follows [evt] under the table [pw], if any. *)
Definition regenerated (pw : AxisIdType → PwmInfo) (evt : Event) : list Event :=
  match direction evt with
  | StepForward =>
      if (nsHigh (pw (stepperId evt)) =? 0)%N then []
      else [mkEvent (timespecAddNano (time evt) (nsHigh (pw (stepperId evt))))
              (stepperId evt) StepBackward]
  | StepBackward =>
      if (nsLow (pw (stepperId evt)) =? 0)%N then []
      else [mkEvent (timespecAddNano (time evt) (nsLow (pw (stepperId evt))))
              (stepperId evt) StepForward]
  end.

(** The handlers registered at [level] by [regs], in the order of [regs]. *)
Fixpoint registeredAt (level : N) (regs : list (Handler * N)) : list Handler :=
  match regs with
  | [] => []
  | (handler, l) :: regs' =>
      if (l =? level)%N then handler :: registeredAt level regs'
      else registeredAt level regs'
  end.

(** ** Scenarios *)

Definition t0 : timespec := mkTimespec 100 0.

(** [n] milliseconds after [t0]. *)
Definition msAfter (n : N) : timespec := timespecAddNano t0 (n * 1000000).

(** S1 of the specification: three rising edges queued out of order. *)
Definition S1_first : Event := mkEvent (msAfter 30) 1%N StepForward.
Definition S1_second : Event := mkEvent (msAfter 10) 2%N StepForward.
Definition S1_third : Event := mkEvent (msAfter 20) 1%N StepForward.

Definition S1_history : list Call :=
  [Producer (CallQueue S1_first); Producer (CallQueue S1_second);
   Producer (CallQueue S1_third);
   CallNextEvent []; CallNextEvent []; CallNextEvent []].

(** The 30 ms event queued before the 10 ms event, then [lastSchedTime]. *)
Definition lastSched_history : list Call :=
  [Producer (CallQueue S1_first); Producer (CallQueue S1_second);
   Producer (CallLastSchedTime t0)].

(** A scheduler whose queue holds the events of S1 in deadline order. *)
Definition S1_in_order : Scheduler :=
  set_eventQueue [S1_second; S1_third; S1_first] (Scheduler_new 512).

(** A scheduler whose queue holds the 30 ms event before the 10 ms event. *)
Definition S1_out_of_order : Scheduler :=
  set_eventQueue [S1_first; S1_second] (Scheduler_new 512).

(** S2 of the specification: channel 5 seeded with 1 ms high, 2 ms low. *)
Definition S2_scheduler : Scheduler :=
  {| eventQueue := [mkEvent t0 5%N StepForward];
     pwmInfo := λ i, if (i =? 5)%N then mkPwmInfo 1000000 2000000 else mkPwmInfo 0 0;
     bufferSize := 512;
     _lockPushes := false;
     _arePushesLocked := false |}.

(** Two events with the same deadline on different channels. *)
Definition tie_first : Event := mkEvent (msAfter 10) 1%N StepForward.
Definition tie_second : Event := mkEvent (msAfter 10) 2%N StepBackward.

Definition tie_history : list Call :=
  [Producer (CallQueue tie_first); Producer (CallQueue tie_second);
   CallNextEvent []; CallNextEvent []].

(** S6 of the specification: H1 and H2 at level 0, H3 at level 1. *)
Definition S6_registrations : list (Handler * N) := [(1, 0); (2, 0); (3, 1)]%N.

(** ** The process around the scheduler: exit and signals *)

(** Signal numbers of <signal.h> on Linux. *)
Definition SIGINT : Z := 2.
Definition SIGABRT : Z := 6.
Definition SIGSEGV : Z := 11.
Definition SIGTSTP : Z := 20.

(** The two signal handlers of the file. *)
Inductive SignalHandler : Type :=
| CtrlCOrZHandler
| SegfaultHandler.

(** What [sigaction] has installed for a signal. *)
Inductive Disposition : Type :=
| SigDefault
| SigHandled (h : SignalHandler).

(** The only function the file gives to [std::atexit]. *)
Inductive AtexitFunction : Type :=
| AtexitCallExitHandlers.

Record Process : Type := mkProcess {
  exitState : ExitState;                (* exitHandlers and isExiting *)
  atexitFunctions : list AtexitFunction; (* in the order of registration *)
  dispositions : Z → Disposition
}.

(** A process that has configured nothing: no [atexit] function, every
    signal at its default. *)
Definition Process_new (st : ExitState) : Process :=
  {| exitState := st; atexitFunctions := []; dispositions := λ _, SigDefault |}.

Inductive ProcessEffect : Type :=
| Printf (fmt : string) (args : list Z)
| SchedulerEffect (e : Effect).

(** How the process ends. *)
Inductive Ending : Type :=
| Exited (status : Z)        (* [exit] ran to its end *)
| DefaultAction (sig : Z)    (* the system's default action for the signal *)
| Aborted.                   (* an exception or undefined behaviour on the way *)

Definition sigaction (sig : Z) (d : Disposition) (p : Process) : Process :=
  {| exitState := exitState p; atexitFunctions := atexitFunctions p;
     dispositions := λ s, if (s =? sig)%Z then d else dispositions p s |}.

Definition configureExitHandlers (p : Process) : Process :=
  let p := {| exitState := exitState p;
              atexitFunctions := atexitFunctions p ++ [AtexitCallExitHandlers];
              dispositions := dispositions p |} in
  let p := sigaction SIGINT (SigHandled CtrlCOrZHandler) p in
  let p := sigaction SIGTSTP (SigHandled CtrlCOrZHandler) p in
  let p := sigaction SIGABRT (SigHandled CtrlCOrZHandler) p in
  sigaction SIGSEGV (SigHandled SegfaultHandler) p.

(** The [atexit] functions [fns], first to last, on the exit state. *)
Fixpoint runAtexit (fns : list AtexitFunction) (st : ExitState)
  : Outcome (unit * ExitState * list Effect) :=
  match fns with
  | [] => Returns (tt, st, [])
  | AtexitCallExitHandlers :: fns' => (callExitHandlers ;; runAtexit fns') st
  end.

(** [exit(status)]: the functions given to [atexit] are called in the reverse
    order of their registration, then the process ends with [status]. *)
Definition std_exit (status : Z) (p : Process) : Ending * ExitState * list ProcessEffect :=
  match runAtexit (reverse (atexitFunctions p)) (exitState p) with
  | Returns (_, st, tr) => (Exited status, st, SchedulerEffect <$> tr)
  | _ => (Aborted, exitState p, [])
  end.

Definition ctrlCOrZHandler (s : Z) (p : Process) : Ending * ExitState * list ProcessEffect :=
  let '(e, st, tr) := std_exit 1 p in
  (e, st, Printf "Caught signal %d\n" [s] :: tr).

(** [si_addr] is the faulting address of the [siginfo_t]. *)
Definition segfaultHandler (si_addr : Z) (p : Process) : Ending * ExitState * list ProcessEffect :=
  let '(e, st, tr) := std_exit 1 p in
  (e, st, Printf "Caught segfault at address %p\n" [si_addr] :: tr).

(** The signal [sig] is delivered to the process. *)
Definition deliver (sig si_addr : Z) (p : Process) : Ending * ExitState * list ProcessEffect :=
  match dispositions p sig with
  | SigDefault => (DefaultAction sig, exitState p, [])
  | SigHandled CtrlCOrZHandler => ctrlCOrZHandler sig p
  | SigHandled SegfaultHandler => segfaultHandler si_addr p
  end.

(** The handlers called, in order, in a trace of the process. *)
Fixpoint processHandlersCalled (tr : list ProcessEffect) : list Handler :=
  match tr with
  | [] => []
  | SchedulerEffect (CallHandler h) :: tr' => h :: processHandlersCalled tr'
  | _ :: tr' => processHandlersCalled tr'
  end.

(** ** Notions used in the further properties *)

(** The number of queued events of channel [idx]. *)
Definition countChannel (idx : AxisIdType) (q : list Event) : nat :=
  length (filter (λ e, stepperId e = idx) q).

(** The number of waits on the condition variable in a trace. *)
Fixpoint waitsOf (tr : list Effect) : nat :=
  match tr with
  | [] => 0
  | Wait :: tr' => S (waitsOf tr')
  | _ :: tr' => waitsOf tr'
  end.

(** What a call of [queue(evt)] adds to the trace. *)
Definition queueEffects (evt : Event) : list Effect := [Insert evt; NotifyOne].

(** The other edge. *)
Definition flipDirection (d : StepDirection) : StepDirection :=
  match d with
  | StepForward => StepBackward
  | StepBackward => StepForward
  end.

(** The time from an edge of direction [d] to the next edge of the channel. *)
Definition halfPeriod (p : PwmInfo) (d : StepDirection) : N :=
  match d with
  | StepForward => nsHigh p
  | StepBackward => nsLow p
  end.

(** [n] calls of [nextEvent] in a row, with no producer at work. *)
Definition nextEvents (n : nat) : list Call := replicate n (CallNextEvent []).

(** The [lock]/[unlock] calls [ops] on [_lockPushes], made one after the other
    from ownership [held]: the ownership they end in, or nothing if one of
    them locks an owned lock or unlocks a lock that is not owned. *)
Fixpoint lockDiscipline (held : bool) (ops : list Effect) : option bool :=
  match ops with
  | [] => Some held
  | LockPushes :: ops' => if held then None else lockDiscipline true ops'
  | UnlockPushes :: ops' => if held then lockDiscipline false ops' else None
  | _ :: ops' => lockDiscipline held ops'
  end.

(** The outcome is a return or a wait: the model met none of its errors (a
    lock taken twice, an unlock or a wait without the lock, [front()] or
    [back()] of an empty queue). *)
Definition returnsOrBlocks {A} (o : Outcome A) : Prop :=
  match o with
  | Returns _ | Blocks => True
  | Throws _ | Undefined => False
  end.

(** * Properties *)

(** ** The monad and the projections of a trace *)

Ltac unfold_M :=
  unfold mbind, mret, M_bind, M_ret, get, modify, emit, throw, blocks, undefined.

Lemma bind_Returns {S A B} (m : M S A) (f : A → M S B) s a s1 t1 :
  m s = Returns (a, s1, t1) →
  (m ≫= f) s =
    match f a s1 with
    | Returns (b, s2, t2) => Returns (b, s2, t1 ++ t2)
    | Throws w => Throws w
    | Blocks => Blocks
    | Undefined => Undefined
    end.
Proof. intros Hm. unfold mbind, M_bind. now rewrite Hm. Qed.

Lemma bind_inv {S A B} (m : M S A) (f : A → M S B) s b s2 t :
  (m ≫= f) s = Returns (b, s2, t) →
  ∃ a s1 t1 t2, m s = Returns (a, s1, t1) ∧ f a s1 = Returns (b, s2, t2) ∧ t = t1 ++ t2.
Proof.
  unfold mbind, M_bind. destruct (m s) as [[[a s1] t1]| | |]; try discriminate.
  destruct (f a s1) as [[[b' s2'] t2]| | |] eqn:Hf; try discriminate.
  intros [= -> -> <-]. now exists a, s1, t1, t2.
Qed.

Lemma bind_get {S B} (f : S → M S B) s : (get ≫= f) s = f s s.
Proof.
  unfold mbind, M_bind, get. destruct (f s s) as [[[b s2] t2]| | |]; reflexivity.
Qed.

Lemma insertsOf_app t1 t2 : insertsOf (t1 ++ t2) = insertsOf t1 ++ insertsOf t2.
Proof.
  induction t1 as [|e t1 IH]; [reflexivity|].
  destruct e; simpl; rewrite IH; reflexivity.
Qed.

Lemma handlersCalled_CallHandler l : handlersCalled (CallHandler <$> l) = l.
Proof. induction l as [|h l IH]; simpl; [reflexivity | f_equal; exact IH]. Qed.

(** ** Time *)

Lemma timespecLt_irrefl t : timespecLt t t = false.
Proof.
  unfold timespecLt. rewrite !Z.ltb_irrefl, Bool.andb_false_r. reflexivity.
Qed.

Lemma toNanos_timespecAddNano t ns :
  toNanos (timespecAddNano t ns) = (toNanos t + Z.of_N ns)%Z.
Proof.
  unfold toNanos, timespecAddNano, NSEC_PER_SEC; simpl.
  pose proof (Z.div_mod (tv_nsec t + Z.of_N ns) 1000000000). lia.
Qed.

(** ** orderedInsert *)

Lemma orderedInsert_append evt s :
  orderedInsert evt s = Returns (tt, set_eventQueue (eventQueue s ++ [evt]) s, [Insert evt]).
Proof.
  unfold orderedInsert. unfold_M. simpl.
  rewrite last_snoc, timespecLt_irrefl. reflexivity.
Qed.

Lemma queue_unlocked evt s :
  _lockPushes s = false →
  queue evt s =
    Returns (tt, set_eventQueue (eventQueue s ++ [evt]) s, [Insert evt; NotifyOne]).
Proof.
  intros Hl. unfold queue, scopedLock. unfold mbind at 1, M_bind. unfold_M.
  rewrite Hl. fold (@mbind (M Scheduler) _).
  rewrite orderedInsert_append. reflexivity.
Qed.

Lemma queue_locked evt s : _lockPushes s = true → queue evt s = Blocks.
Proof. intros Hl. unfold queue, scopedLock. unfold_M. now rewrite Hl. Qed.

#[local] Arguments orderedInsert : simpl never.

(** ** schedPwm and lastSchedTime *)

Lemma schedPwm_active s idx p now :
  isActive s idx →
  schedPwm idx p now s =
    Returns (tt, set_pwmInfo idx p s,
             [Log LogVerbose "Scheduler::schedPwm: %i, %u, %u. Current: %u, %u\n"
                [Z.of_N idx; Z.of_N (nsHigh p); Z.of_N (nsLow p);
                 Z.of_N (nsHigh (pwmInfo s idx)); Z.of_N (nsLow (pwmInfo s idx))]]).
Proof.
  intros [Hh Hl]. unfold schedPwm. unfold_M.
  apply N.eqb_neq in Hh, Hl. rewrite Hh, Hl. reflexivity.
Qed.

Lemma schedPwm_inactive s idx p now :
  ¬ isActive s idx →
  schedPwm idx p now s =
    if _lockPushes s then Blocks
    else Returns (tt,
                  set_eventQueue (eventQueue s ++ [mkEvent now idx StepForward])
                    (set_pwmInfo idx p s),
                  [Log LogVerbose "Scheduler::schedPwm: %i, %u, %u. Current: %u, %u\n"
                     [Z.of_N idx; Z.of_N (nsHigh p); Z.of_N (nsLow p);
                      Z.of_N (nsHigh (pwmInfo s idx)); Z.of_N (nsLow (pwmInfo s idx))];
                   Log LogVerbose "Scheduler::schedPwm: queueing\n" [];
                   Insert (mkEvent now idx StepForward);
                   NotifyOne]).
Proof.
  intros Hna. unfold schedPwm. unfold_M.
  assert (negb (nsHigh (pwmInfo s idx) =? 0)%N && negb (nsLow (pwmInfo s idx) =? 0)%N = false)
    as ->.
  { unfold isActive in Hna.
    destruct (N.eqb_spec (nsHigh (pwmInfo s idx)) 0), (N.eqb_spec (nsLow (pwmInfo s idx)) 0);
      simpl; tauto. }
  destruct (_lockPushes s) eqn:Hl.
  - rewrite queue_locked; [reflexivity | exact Hl].
  - rewrite queue_unlocked; [reflexivity | exact Hl].
Qed.

Lemma isActive_dec s idx : {isActive s idx} + {¬ isActive s idx}.
Proof.
  unfold isActive.
  destruct (N.eq_dec (nsHigh (pwmInfo s idx)) 0), (N.eq_dec (nsLow (pwmInfo s idx)) 0);
    [right | right | right | left]; tauto.
Qed.

Lemma lastSchedTime_eq now s :
  lastSchedTime now s =
    if _lockPushes s then Blocks
    else Returns (match last (eventQueue s) with
                  | Some evt => time evt
                  | None => now
                  end, s, []).
Proof.
  unfold lastSchedTime, scopedLock. unfold_M.
  destruct (_lockPushes s); [reflexivity|].
  destruct (eventQueue s) as [|e q] using rev_ind; [reflexivity|].
  rewrite last_snoc, length_app. simpl.
  replace (length q + 1 =? 0)%nat with false; [reflexivity|].
  symmetry. apply Nat.eqb_neq. lia.
Qed.

(** ** Producer calls *)

Lemma mret_inv {S A} (a : A) (s : S) r s' tr :
  mret (M := M S) a s = Returns (r, s', tr) → r = a ∧ s' = s ∧ tr = [].
Proof. unfold mret, M_ret. intros [= <- <- <-]. auto. Qed.

Lemma lockOpsOf_app t1 t2 : lockOpsOf (t1 ++ t2) = lockOpsOf t1 ++ lockOpsOf t2.
Proof.
  induction t1 as [|e t1 IH]; [reflexivity|].
  destruct e; simpl; rewrite IH; reflexivity.
Qed.

Lemma lockOpsOf_Insert l : lockOpsOf (Insert <$> l) = [].
Proof. induction l as [|e l IH]; simpl; [reflexivity | exact IH]. Qed.

Lemma insertsOf_Insert l : insertsOf (Insert <$> l) = l.
Proof. induction l as [|e l IH]; simpl; [reflexivity | f_equal; exact IH]. Qed.

Lemma producerStep_refl s : producerStep s s [].
Proof. unfold producerStep. simpl. rewrite app_nil_r. auto. Qed.

Lemma producerStep_trans s1 s2 s3 t1 t2 :
  producerStep s1 s2 t1 → producerStep s2 s3 t2 → producerStep s1 s3 (t1 ++ t2).
Proof.
  unfold producerStep. intros (Hq1 & Hl1 & Ha1 & Ho1) (Hq2 & Hl2 & Ha2 & Ho2).
  rewrite insertsOf_app, lockOpsOf_app, Ho1, Ho2, Hq2, Hq1, app_assoc.
  repeat split; congruence.
Qed.

Lemma callProducer_step c s r s' tr :
  callProducer c s = Returns (r, s', tr) → producerStep s s' tr.
Proof.
  destruct c as [evt|idx p now|now|size|]; simpl; intros H;
    apply bind_inv in H as (a & s1 & t1 & t2 & H1 & H2 & ->);
    apply mret_inv in H2 as (-> & -> & ->); rewrite app_nil_r.
  - destruct (_lockPushes s) eqn:Hl.
    + rewrite queue_locked in H1 by exact Hl. discriminate.
    + rewrite queue_unlocked in H1 by exact Hl. injection H1 as <- <- <-.
      repeat split.
  - destruct (isActive_dec s idx) as [Ha|Ha].
    + rewrite schedPwm_active in H1 by exact Ha. injection H1 as <- <- <-.
      unfold producerStep; simpl; rewrite ?app_nil_r; auto.
    + rewrite schedPwm_inactive in H1 by exact Ha.
      destruct (_lockPushes s); [discriminate|]. injection H1 as <- <- <-.
      repeat split.
  - rewrite lastSchedTime_eq in H1.
    destruct (_lockPushes s); [discriminate|]. injection H1 as <- <- <-.
    unfold producerStep; simpl; rewrite ?app_nil_r; auto.
  - unfold setBufferSize, modify in H1. injection H1 as <- <- <-.
    unfold producerStep; simpl; rewrite ?app_nil_r; auto.
  - unfold getBufferSize in H1. unfold_M. injection H1 as <- <- <-.
    unfold producerStep; simpl; rewrite ?app_nil_r; auto.
Qed.

(** A producer call returns whenever the consumer does not hold the mutex. *)
Lemma callProducer_returns c s :
  _lockPushes s = false → ∃ r s' tr, callProducer c s = Returns (r, s', tr).
Proof.
  intros Hl. destruct c as [evt|idx p now|now|size|]; simpl.
  - unfold mbind, M_bind. rewrite queue_unlocked by exact Hl. eauto.
  - unfold mbind, M_bind. destruct (isActive_dec s idx) as [Ha|Ha].
    + rewrite schedPwm_active by exact Ha. eauto.
    + rewrite schedPwm_inactive by exact Ha. rewrite Hl. eauto.
  - unfold mbind, M_bind. rewrite lastSchedTime_eq, Hl. eauto.
  - eauto.
  - eauto.
Qed.

Lemma runProducers_step cs : ∀ s s' tr,
  runProducers cs s = Returns (tt, s', tr) → producerStep s s' tr.
Proof.
  induction cs as [|c cs IH]; simpl; intros s s' tr H.
  - apply mret_inv in H as (_ & -> & ->). apply producerStep_refl.
  - apply bind_inv in H as (r & s1 & t1 & t2 & H1 & H2 & ->).
    eapply producerStep_trans; [eapply callProducer_step, H1 | apply IH, H2].
Qed.

Lemma runProducers_returns cs : ∀ s,
  _lockPushes s = false → ∃ s' tr, runProducers cs s = Returns (tt, s', tr).
Proof.
  induction cs as [|c cs IH]; simpl; intros s Hl; [eauto|].
  destruct (callProducer_returns c s Hl) as (r & s1 & t1 & H1).
  destruct (callProducer_step _ _ _ _ _ H1) as (_ & Hl1 & _).
  destruct (IH s1) as (s2 & t2 & H2); [congruence|].
  rewrite (bind_Returns _ _ _ _ _ _ H1), H2. eauto.
Qed.

(** ** The wait of the consumer *)

Lemma nonemptyCond_wait_step during s s' tr :
  nonemptyCond_wait during s = Returns (tt, s', tr) →
  _lockPushes s = true ∧ producerStep s s' tr.
Proof.
  unfold nonemptyCond_wait. intros H.
  apply bind_inv in H as (s0 & sa & ta & tb & Ha & Hb & ->).
  injection Ha as <- <- <-.
  destruct (_lockPushes s) eqn:Hl; [|discriminate]. split; [reflexivity|].
  apply bind_inv in Hb as ([] & sb & tc & td & Hb & Hc & ->).
  injection Hb as <- <-.
  apply bind_inv in Hc as ([] & sc & te & tf & Hc & Hd & ->).
  injection Hc as <- <-.
  apply bind_inv in Hd as ([] & sd & tg & th & Hd & He & ->).
  injection He as <- <-.
  apply runProducers_step in Hd as (Hq & Hl1 & Hapl & Ho).
  unfold producerStep. simpl in *.
  rewrite insertsOf_app, lockOpsOf_app, Ho, !app_nil_r. auto.
Qed.

Lemma nonemptyCond_wait_returns during s :
  _lockPushes s = true → ∃ s' tr, nonemptyCond_wait during s = Returns (tt, s', tr).
Proof.
  intros Hl. unfold nonemptyCond_wait.
  rewrite (bind_Returns _ _ s s s []) by reflexivity. rewrite Hl.
  rewrite (bind_Returns _ _ s tt s [Wait]) by reflexivity.
  rewrite (bind_Returns _ _ s tt (set_lockPushes false s) []) by reflexivity.
  destruct (runProducers_returns during (set_lockPushes false s)) as (s1 & t1 & H1);
    [reflexivity|].
  rewrite (bind_Returns _ _ _ _ _ _ H1). unfold modify. eauto.
Qed.

Lemma waitWhileEmpty_eq wakeups s :
  waitWhileEmpty wakeups s =
    match eventQueue s with
    | _ :: _ => Returns (tt, s, [])
    | [] =>
        match wakeups with
        | [] => Blocks
        | during :: wakeups' => (nonemptyCond_wait during ;; waitWhileEmpty wakeups') s
        end
    end.
Proof.
  destruct wakeups; cbn [waitWhileEmpty]; rewrite bind_get;
    destruct (eventQueue s); reflexivity.
Qed.

(** The wait ends on a non-empty queue, and until then only producers have
    touched the scheduler. *)
Lemma waitWhileEmpty_step wakeups : ∀ s s' tr,
  waitWhileEmpty wakeups s = Returns (tt, s', tr) →
  eventQueue s' ≠ [] ∧ producerStep s s' tr.
Proof.
  induction wakeups as [|during wakeups IH]; intros s s' tr;
    rewrite waitWhileEmpty_eq; destruct (eventQueue s) eqn:Hq;
    try discriminate;
    try (intros [= <- <-]; split; [congruence | apply producerStep_refl]).
  intros H. apply bind_inv in H as ([] & s1 & t1 & t2 & H1 & H2 & ->).
  apply nonemptyCond_wait_step in H1 as [_ H1]. apply IH in H2 as [Hne H2].
  split; [exact Hne | eapply producerStep_trans; eassumption].
Qed.

Lemma waitWhileEmpty_nonempty wakeups s evt rest :
  eventQueue s = evt :: rest → waitWhileEmpty wakeups s = Returns (tt, s, []).
Proof. intros Hq. rewrite waitWhileEmpty_eq, Hq. reflexivity. Qed.

(** ** nextEvent *)

(** What [nextEvent] does once its wait has ended in [s1] with [evt] at the
    front of the queue. *)
Lemma nextEvent_tail wakeups s sa ta s1 t1 evt rest :
  (if negb (_arePushesLocked s) then lockPushes_lock else mret tt) s
  = Returns (tt, sa, ta) →
  waitWhileEmpty wakeups sa = Returns (tt, s1, t1) →
  eventQueue s1 = evt :: rest →
  let q' := rest ++ regenerated (pwmInfo s1) evt in
  let full := negb (N.of_nat (length q') <? bufferSize s1)%N in
  nextEvent wakeups s =
    if full || _lockPushes s1
    then Returns (evt,
                  {| eventQueue := q'; pwmInfo := pwmInfo s1; bufferSize := bufferSize s1;
                     _lockPushes := if full then _lockPushes s1 else false;
                     _arePushesLocked := full |},
                  ta ++ t1 ++ (Insert <$> regenerated (pwmInfo s1) evt)
                     ++ (if full then [] else [UnlockPushes])
                     ++ [SleepUntil (time evt)])
    else Throws "std::system_error: operation_not_permitted".
Proof.
  intros Hentry Hwait Hq. unfold nextEvent. rewrite bind_get.
  rewrite (bind_Returns _ _ _ _ _ _ Hentry), (bind_Returns _ _ _ _ _ _ Hwait).
  rewrite bind_get, Hq. clear Hentry Hwait.
  destruct s1 as [q pw bs lp apl]; simpl in Hq; subst q.
  destruct evt as [t id d]. unfold regenerated, lockPushes_unlock. unfold_M. simpl.
  destruct d; simpl;
    match goal with
    | |- context [(?a =? 0)%N] => destruct (a =? 0)%N; simpl
    end;
    rewrite ?orderedInsert_append; unfold offsetNano; simpl; rewrite ?app_nil_r;
    match goal with
    | |- context [(?a <? ?b)%N] => destruct (a <? b)%N; simpl
    end;
    destruct lp; simpl; rewrite ?app_nil_r; reflexivity.
Qed.

Lemma nextEvent_entry s :
  lockConsistent s →
  (if negb (_arePushesLocked s) then lockPushes_lock else mret tt) s
  = Returns (tt, set_lockPushes true s, if _arePushesLocked s then [] else [LockPushes]).
Proof.
  unfold lockConsistent. destruct s as [q pw bs lp apl]; simpl. intros ->.
  destruct apl; reflexivity.
Qed.

(** A [nextEvent] entered in a consistent state: once its wait has ended in
    [s1] with [evt] at the front of the queue, it returns [evt]. *)
Lemma nextEvent_after_wait wakeups s s1 t1 evt rest :
  lockConsistent s →
  waitWhileEmpty wakeups (set_lockPushes true s) = Returns (tt, s1, t1) →
  eventQueue s1 = evt :: rest →
  let q' := rest ++ regenerated (pwmInfo s1) evt in
  let full := negb (N.of_nat (length q') <? bufferSize s1)%N in
  nextEvent wakeups s =
    Returns (evt,
             {| eventQueue := q'; pwmInfo := pwmInfo s1; bufferSize := bufferSize s1;
                _lockPushes := full; _arePushesLocked := full |},
             (if _arePushesLocked s then [] else [LockPushes])
               ++ t1 ++ (Insert <$> regenerated (pwmInfo s1) evt)
               ++ (if full then [] else [UnlockPushes])
               ++ [SleepUntil (time evt)]).
Proof.
  intros Hc Hwait Hq q' full.
  rewrite (nextEvent_tail wakeups s _ _ s1 t1 evt rest (nextEvent_entry s Hc) Hwait Hq).
  destruct (waitWhileEmpty_step _ _ _ _ Hwait) as (_ & _ & Hl & _). simpl in Hl.
  rewrite Hl, orb_true_r. fold q'. fold full. destruct full; reflexivity.
Qed.

(** Whatever the state, a [nextEvent] that returns has handed out the front
    of the events stored. *)
Lemma nextEvent_fifo wakeups s evt s' tr :
  nextEvent wakeups s = Returns (evt, s', tr) →
  eventQueue s ++ insertsOf tr = evt :: eventQueue s'.
Proof.
  intros H. pose proof H as H'. unfold nextEvent in H'. rewrite bind_get in H'.
  apply bind_inv in H' as ([] & sa & ta & tb & Hentry & Hrest & _).
  apply bind_inv in Hrest as ([] & s1 & t1 & tc & Hwait & _ & _).
  destruct (waitWhileEmpty_step _ _ _ _ Hwait) as (Hne & Hq1 & _).
  destruct (eventQueue s1) as [|e rest] eqn:Hq; [congruence|].
  rewrite (nextEvent_tail wakeups s sa ta s1 t1 e rest Hentry Hwait Hq) in H.
  cbv zeta in H. destruct (_ || _); [|discriminate]. injection H as <- <- <-. simpl.
  assert (Hsa : eventQueue sa = eventQueue s ∧ insertsOf ta = []).
  { revert Hentry. unfold lockPushes_lock. unfold_M.
    destruct s as [q pw bs lp apl]; simpl. destruct apl, lp; simpl;
      try discriminate; intros [= <- <-]; auto. }
  destruct Hsa as [Hqa Hta].
  rewrite !insertsOf_app, insertsOf_Insert, Hta. simpl.
  assert (Hun : ∀ b : bool, insertsOf (if b then [] else [UnlockPushes]) = [])
    by (intros []; reflexivity).
  rewrite Hun. simpl. rewrite app_nil_r, app_assoc, <- Hqa, <- Hq1. reflexivity.
Qed.

Lemma nextEvent_inv_wait wakeups s evt s' tr :
  lockConsistent s →
  nextEvent wakeups s = Returns (evt, s', tr) →
  ∃ s1 t1 rest,
    waitWhileEmpty wakeups (set_lockPushes true s) = Returns (tt, s1, t1)
    ∧ eventQueue s1 = evt :: rest.
Proof.
  intros Hc H. pose proof H as H'. unfold nextEvent in H'. rewrite bind_get in H'.
  rewrite (bind_Returns _ _ _ _ _ _ (nextEvent_entry s Hc)) in H'.
  destruct (waitWhileEmpty wakeups (set_lockPushes true s))
    as [[[[] s1] t1]| | |] eqn:Hwait;
    try (unfold mbind, M_bind in H'; rewrite Hwait in H'; discriminate).
  destruct (waitWhileEmpty_step _ _ _ _ Hwait) as (Hne & _).
  destruct (eventQueue s1) as [|e rest] eqn:Hq; [congruence|].
  rewrite (nextEvent_after_wait wakeups s s1 t1 e rest Hc Hwait Hq) in H.
  injection H as <- _ _. eauto.
Qed.

(** With the mutex owned, the wait either ends or goes on: it neither throws
    nor runs into undefined behaviour. *)
Lemma waitWhileEmpty_ends_or_blocks wakeups : ∀ s,
  _lockPushes s = true →
  (∃ s1 t1, waitWhileEmpty wakeups s = Returns (tt, s1, t1))
  ∨ waitWhileEmpty wakeups s = Blocks.
Proof.
  induction wakeups as [|during wakeups IH]; intros s Hl;
    rewrite waitWhileEmpty_eq; destruct (eventQueue s); eauto.
  destruct (nonemptyCond_wait_returns during s Hl) as (s' & tr & Hw).
  rewrite (bind_Returns _ _ _ _ _ _ Hw).
  destruct (nonemptyCond_wait_step _ _ _ _ Hw) as (_ & _ & Hl' & _).
  destruct (IH s') as [(s1 & t1 & ->)| ->]; [congruence | eauto | eauto].
Qed.

(** Entered in a consistent state, [nextEvent] hands out an event or is still
    waiting for one. *)
Lemma nextEvent_returns_or_waits wakeups s :
  lockConsistent s →
  (∃ evt s' tr, nextEvent wakeups s = Returns (evt, s', tr))
  ∨ nextEvent wakeups s = Blocks.
Proof.
  intros Hc.
  destruct (waitWhileEmpty_ends_or_blocks wakeups (set_lockPushes true s) eq_refl)
    as [(s1 & t1 & Hwait)|Hwait].
  - left. destruct (waitWhileEmpty_step _ _ _ _ Hwait) as (Hne & _).
    destruct (eventQueue s1) as [|evt rest] eqn:Hq; [congruence|].
    rewrite (nextEvent_after_wait wakeups s s1 t1 evt rest Hc Hwait Hq). eauto.
  - right. unfold nextEvent. rewrite bind_get.
    rewrite (bind_Returns _ _ _ _ _ _ (nextEvent_entry s Hc)).
    unfold mbind at 1, M_bind. now rewrite Hwait.
Qed.

(** On an empty queue without a wake-up the consumer keeps waiting. *)
Lemma nextEvent_empty s :
  lockConsistent s → eventQueue s = [] → nextEvent [] s = Blocks.
Proof.
  intros Hc Hq. unfold nextEvent. rewrite bind_get.
  rewrite (bind_Returns _ _ _ _ _ _ (nextEvent_entry s Hc)).
  unfold mbind at 1, M_bind. rewrite waitWhileEmpty_eq. simpl. rewrite Hq.
  reflexivity.
Qed.

Lemma Scheduler_new_lockConsistent cap : lockConsistent (Scheduler_new cap).
Proof. reflexivity. Qed.

(** A consumer that finds the queue empty hands out the event a producer
    queues while it waits. *)
Lemma nextEvent_waits_for_producer evt cap :
  (0 < cap)%N →
  ∃ tr, nextEvent [[CallQueue evt]] (Scheduler_new cap)
        = Returns (evt, Scheduler_new cap, tr)
        ∧ insertsOf tr = [evt].
Proof.
  intros Hcap.
  assert (Hwait : waitWhileEmpty [[CallQueue evt]] (set_lockPushes true (Scheduler_new cap))
                  = Returns (tt, set_eventQueue [evt] (set_lockPushes true (Scheduler_new cap)),
                             [Wait; Insert evt; NotifyOne])).
  { rewrite waitWhileEmpty_eq. simpl.
    unfold nonemptyCond_wait, runProducers, callProducer. unfold_M. simpl.
    rewrite queue_unlocked by reflexivity. reflexivity. }
  eexists.
  rewrite (nextEvent_after_wait [[CallQueue evt]] (Scheduler_new cap) _ _ evt []
             (Scheduler_new_lockConsistent cap) Hwait eq_refl).
  apply N.ltb_lt in Hcap.
  unfold regenerated.
  destruct (direction evt); simpl; change (N.of_nat 0) with 0%N;
    rewrite Hcap; split; reflexivity.
Qed.

(** ** Histories: the queue is first-in first-out *)

Lemma callProducer_reply c s r s' tr :
  callProducer c s = Returns (r, s', tr) → returnedEvents [r] = [].
Proof.
  destruct c as [evt|idx p now|now|size|]; simpl; intros H;
    apply bind_inv in H as (a & s1 & t1 & t2 & H1 & H2 & ->);
    apply mret_inv in H2 as (-> & -> & ->); reflexivity.
Qed.

Lemma call_fifo c s r s' tr :
  call c s = Returns (r, s', tr) →
  eventQueue s ++ insertsOf tr = returnedEvents [r] ++ eventQueue s'.
Proof.
  destruct c as [c|wakeups]; cbn [call]; intros H.
  - rewrite (callProducer_reply _ _ _ _ _ H).
    apply callProducer_step in H as (Hq & _). simpl. now rewrite Hq.
  - apply bind_inv in H as (evt & s1 & t1 & t2 & H1 & H2 & ->).
    apply mret_inv in H2 as (-> & -> & ->). rewrite app_nil_r.
    simpl. apply (nextEvent_fifo wakeups), H1.
Qed.

Lemma returnedEvents_cons r rs :
  returnedEvents (r :: rs) = returnedEvents [r] ++ returnedEvents rs.
Proof. destruct r; reflexivity. Qed.

(** Along any history of completed calls, the events ever stored (those
    already in the queue, then those given to [orderedInsert], in that order)
    are the events handed out followed by the events still queued. *)
Lemma run_fifo cs : ∀ s rs s' tr,
  run cs s = Returns (rs, s', tr) →
  eventQueue s ++ insertsOf tr = returnedEvents rs ++ eventQueue s'.
Proof.
  induction cs as [|c cs IH]; simpl; intros s rs s' tr H.
  - apply mret_inv in H as (-> & -> & ->). simpl. apply app_nil_r.
  - apply bind_inv in H as (r & s1 & t1 & t2 & H1 & H2 & ->).
    apply bind_inv in H2 as (rs' & s2 & t3 & t4 & H2 & H3 & ->).
    apply mret_inv in H3 as (-> & -> & ->). rewrite app_nil_r.
    apply call_fifo in H1. apply IH in H2.
    rewrite insertsOf_app, returnedEvents_cons, app_assoc, H1, <- !app_assoc.
    now rewrite H2.
Qed.

Lemma call_lockConsistent c s r s' tr :
  lockConsistent s → call c s = Returns (r, s', tr) → lockConsistent s'.
Proof.
  unfold lockConsistent. intros Hc. destruct c as [c|wakeups]; simpl; intros H.
  - apply callProducer_step in H as (_ & Hl & Ha & _). congruence.
  - apply bind_inv in H as (evt & s1 & t1 & t2 & H1 & H2 & ->).
    apply mret_inv in H2 as (-> & -> & ->).
    destruct (nextEvent_inv_wait _ _ _ _ _ Hc H1) as (sw & tw & rest & Hwait & Hq).
    rewrite (nextEvent_after_wait wakeups s sw tw evt rest Hc Hwait Hq) in H1.
    injection H1 as <- _. reflexivity.
Qed.

(** The flag and the ownership of the mutex agree after every history that
    starts from a consistent state, so after every history of a new
    scheduler. *)
Lemma run_lockConsistent cs : ∀ s rs s' tr,
  lockConsistent s → run cs s = Returns (rs, s', tr) → lockConsistent s'.
Proof.
  induction cs as [|c cs IH]; simpl; intros s rs s' tr Hc H.
  - apply mret_inv in H as (-> & -> & ->). exact Hc.
  - apply bind_inv in H as (r & s1 & t1 & t2 & H1 & H2 & ->).
    apply bind_inv in H2 as (rs' & s2 & t3 & t4 & H2 & H3 & ->).
    apply mret_inv in H3 as (-> & -> & ->).
    eapply IH; [|exact H2]. eapply call_lockConsistent; eauto.
Qed.

(** ** The exit handlers *)

Lemma forM_handlers (level : list Handler) (st : ExitState) :
  forM_ level (λ handler, emit (CallHandler handler)) st
  = Returns (tt, st, CallHandler <$> level).
Proof.
  induction level as [|h level IH]; cbn [forM_]; [reflexivity|].
  rewrite (bind_Returns _ _ st tt st [CallHandler h]) by reflexivity.
  rewrite IH. reflexivity.
Qed.

Lemma forM_levels (levels : list (list Handler)) (st : ExitState) :
  forM_ levels (λ level, forM_ level (λ handler, emit (CallHandler handler))) st
  = Returns (tt, st, CallHandler <$> concat levels).
Proof.
  induction levels as [|level levels IH]; cbn [forM_]; [reflexivity|].
  rewrite (bind_Returns _ _ st tt st (CallHandler <$> level)) by apply forM_handlers.
  rewrite IH. cbn [concat]. rewrite fmap_app. reflexivity.
Qed.

Lemma callExitHandlers_first st :
  isExiting st = false →
  callExitHandlers st =
    Returns (tt, {| exitHandlers := exitHandlers st; isExiting := true |},
             Log LogInfo "Exiting\n" [] :: (CallHandler <$> concat (exitHandlers st))).
Proof.
  intros He. unfold callExitHandlers, isExiting_exchange.
  unfold mbind, M_bind, mret, M_ret, get, modify, emit. simpl. rewrite He. simpl.
  rewrite forM_levels. reflexivity.
Qed.

Lemma callExitHandlers_again st :
  isExiting st = true → callExitHandlers st = Returns (tt, st, []).
Proof.
  destruct st as [hs e]; simpl. intros ->. reflexivity.
Qed.

Lemma registerExitHandler_in_range handler level st :
  (level < N.of_nat (length (exitHandlers st)))%N →
  ∃ v, exitHandlers st !! N.to_nat level = Some v
       ∧ registerExitHandler handler level st =
           Returns (tt,
                    {| exitHandlers := <[N.to_nat level := v ++ [handler]]> (exitHandlers st);
                       isExiting := isExiting st |},
                    []).
Proof.
  intros Hlt.
  destruct (lookup_lt_is_Some_2 (exitHandlers st) (N.to_nat level)) as [v Hv]; [lia|].
  exists v. split; [exact Hv|].
  unfold registerExitHandler. unfold_M.
  replace (N.of_nat (length (exitHandlers st)) <? level)%N with false
    by (symmetry; apply N.ltb_ge; lia).
  rewrite Hv. reflexivity.
Qed.

Lemma registerExitHandler_at_size handler st :
  registerExitHandler handler (N.of_nat (length (exitHandlers st))) st = Undefined.
Proof.
  unfold registerExitHandler. unfold_M.
  rewrite N.ltb_irrefl, Nat2N.id.
  rewrite (lookup_ge_None_2 (exitHandlers st)) by lia. reflexivity.
Qed.

Lemma registerExitHandler_above handler level st :
  (N.of_nat (length (exitHandlers st)) < level)%N →
  registerExitHandler handler level st
  = Throws "Tried to register an exit handler at too high of a level".
Proof.
  intros Hlt. unfold registerExitHandler. unfold_M.
  apply N.ltb_lt in Hlt. rewrite Hlt. reflexivity.
Qed.

Lemma registerAll_in_range regs : ∀ st,
  Forall (λ r, (r.2 < N.of_nat (length (exitHandlers st)))%N) regs →
  registerAll regs st =
    Returns (tt,
             {| exitHandlers :=
                  imap (λ l v, v ++ registeredAt (N.of_nat l) regs) (exitHandlers st);
                isExiting := isExiting st |},
             []).
Proof.
  induction regs as [|[h lv] regs IH]; intros st Hall; simpl.
  - unfold mret, M_ret. destruct st as [hs e]; simpl. do 4 f_equal.
    apply list_eq. intros i. rewrite list_lookup_imap.
    destruct (hs !! i); simpl; [now rewrite app_nil_r | reflexivity].
  - inversion Hall as [|? ? Hlv Hall']; subst. simpl in Hlv.
    destruct (registerExitHandler_in_range h lv st Hlv) as (v & Hv & Hreg).
    rewrite (bind_Returns _ _ _ _ _ _ Hreg).
    rewrite IH; simpl.
    2:{ rewrite length_insert. exact Hall'. }
    do 4 f_equal. apply list_eq. intros i. rewrite !list_lookup_imap.
    destruct (decide (i = N.to_nat lv)) as [->|Hne].
    + rewrite list_lookup_insert_eq by lia. rewrite Hv. simpl.
      rewrite N2Nat.id, N.eqb_refl. now rewrite <- app_assoc.
    + rewrite list_lookup_insert_ne by congruence.
      destruct (exitHandlers st !! i); simpl; [|reflexivity].
      replace (lv =? N.of_nat i)%N with false; [reflexivity|].
      symmetry. apply N.eqb_neq. lia.
Qed.

Lemma imap_replicate_nil (f : nat → list Handler) n :
  imap (λ l v, v ++ f l) (replicate n []) = f <$> seq 0 n.
Proof.
  apply list_eq. intros i.
  rewrite list_lookup_imap, list_lookup_fmap.
  destruct (decide (i < n)) as [Hlt|Hge].
  - rewrite lookup_replicate_2 by exact Hlt. rewrite lookup_seq_lt by exact Hlt.
    reflexivity.
  - rewrite (proj1 (lookup_replicate_None n [] i)) by lia.
    rewrite lookup_seq_ge by lia. reflexivity.
Qed.

(** Registering one more handler adds exactly that handler to the registry. *)
Lemma concat_insert_snoc (hs : list (list Handler)) i v h :
  hs !! i = Some v → concat (<[i := v ++ [h]]> hs) ≡ₚ h :: concat hs.
Proof.
  revert i. induction hs as [|w hs IH]; intros [|i]; simpl; try discriminate.
  - intros [= ->]. rewrite <- app_assoc. simpl.
    rewrite <- Permutation_middle. reflexivity.
  - intros Hi. rewrite (IH i Hi). rewrite Permutation_middle. reflexivity.
Qed.

(** * The claims *)

(** C1 (the code departs from the claim).  The claim: the events returned by
    successive [nextEvent] calls are non-decreasing in deadline, each pop
    returning a minimum-deadline element.  On scenario S1 (deadlines 30 ms,
    10 ms, 20 ms queued in that order) the code hands the events out in the
    order they were queued, 30 ms, 10 ms, 20 ms: the first pop returns the
    30 ms event while the 10 ms event is stored, and the deadlines go down. *)
Theorem nextEvent_S1_not_ordered :
  ∃ s' tr,
    run S1_history (Scheduler_new 512) =
      Returns ([ReplyVoid; ReplyVoid; ReplyVoid;
                ReplyEvent S1_first; ReplyEvent S1_second; ReplyEvent S1_third], s', tr)
    ∧ timespecLt (time S1_second) (time S1_first) = true
    ∧ deadlinesNonDecreasing [S1_first; S1_second; S1_third] = false.
Proof.
  eexists _, _. split; [vm_compute; reflexivity|].
  split; vm_compute; reflexivity.
Qed.

(** C2.  After popping [evt], [nextEvent] inserts the complementary edge
    exactly when the half-period that follows is non-zero: a rising edge with
    [nsHigh > 0] is followed by the falling edge at [deadline + nsHigh], a
    falling edge with [nsLow > 0] by the rising edge at [deadline + nsLow], and
    with a zero half-period nothing is inserted.  The insertion is made before
    the sleep, hence before [evt] is returned, and the deadline of the new
    edge is the old deadline plus the half-period.  Here [s1] is the scheduler
    when the wait of the call ends (the scheduler at entry with the mutex
    taken, when the queue is not empty) and [t1] the effects of the wait. *)
Theorem nextEvent_regenerates_pwm wakeups s s1 t1 evt rest :
  lockConsistent s →
  waitWhileEmpty wakeups (set_lockPushes true s) = Returns (tt, s1, t1) →
  eventQueue s1 = evt :: rest →
  ∃ s' tr,
    nextEvent wakeups s = Returns (evt, s', tr)
    ∧ (direction evt = StepForward → nsHigh (pwmInfo s1 (stepperId evt)) ≠ 0%N →
       let edge := mkEvent (timespecAddNano (time evt) (nsHigh (pwmInfo s1 (stepperId evt))))
                     (stepperId evt) StepBackward in
       eventQueue s' = rest ++ [edge] ∧ insertsOf tr = insertsOf t1 ++ [edge]
       ∧ toNanos (time edge)
         = (toNanos (time evt) + Z.of_N (nsHigh (pwmInfo s1 (stepperId evt))))%Z)
    ∧ (direction evt = StepForward → nsHigh (pwmInfo s1 (stepperId evt)) = 0%N →
       eventQueue s' = rest ∧ insertsOf tr = insertsOf t1)
    ∧ (direction evt = StepBackward → nsLow (pwmInfo s1 (stepperId evt)) ≠ 0%N →
       let edge := mkEvent (timespecAddNano (time evt) (nsLow (pwmInfo s1 (stepperId evt))))
                     (stepperId evt) StepForward in
       eventQueue s' = rest ++ [edge] ∧ insertsOf tr = insertsOf t1 ++ [edge]
       ∧ toNanos (time edge)
         = (toNanos (time evt) + Z.of_N (nsLow (pwmInfo s1 (stepperId evt))))%Z)
    ∧ (direction evt = StepBackward → nsLow (pwmInfo s1 (stepperId evt)) = 0%N →
       eventQueue s' = rest ∧ insertsOf tr = insertsOf t1)
    ∧ (∃ before, tr = before ++ [SleepUntil (time evt)]
                 ∧ insertsOf before = insertsOf tr).
Proof.
  intros Hc Hwait Hq. eexists _, _.
  split; [apply (nextEvent_after_wait wakeups s s1 t1 evt rest Hc Hwait Hq)|].
  cbn [eventQueue]. rewrite !insertsOf_app, insertsOf_Insert.
  assert (Hun : ∀ b : bool, insertsOf (if b then [] else [UnlockPushes]) = []).
  { intros []; reflexivity. }
  assert (Hlk : ∀ b : bool, insertsOf (if b then [] else [LockPushes]) = []).
  { intros []; reflexivity. }
  rewrite Hun, Hlk. simpl. rewrite !app_nil_r.
  unfold regenerated.
  refine (conj _ (conj _ (conj _ (conj _ _)))).
  - intros -> Hh. cbv zeta. apply N.eqb_neq in Hh. rewrite Hh.
    repeat split. apply toNanos_timespecAddNano.
  - intros -> ->. simpl. now rewrite !app_nil_r.
  - intros -> Hh. cbv zeta. apply N.eqb_neq in Hh. rewrite Hh.
    repeat split. apply toNanos_timespecAddNano.
  - intros -> ->. simpl. now rewrite !app_nil_r.
  - eexists. split.
    + rewrite !app_assoc. reflexivity.
    + rewrite !insertsOf_app, insertsOf_Insert, Hun, Hlk. simpl.
      now rewrite app_nil_r.
Qed.

Lemma nextEvent_regenerates_pwm_witness :
  ∃ s' tr,
    nextEvent [] S2_scheduler = Returns (mkEvent t0 5%N StepForward, s', tr)
    ∧ eventQueue s' = [mkEvent (timespecAddNano t0 1000000) 5%N StepBackward].
Proof.
  destruct (nextEvent_regenerates_pwm [] S2_scheduler (set_lockPushes true S2_scheduler)
              [] (mkEvent t0 5%N StepForward) [] eq_refl eq_refl eq_refl)
    as (s' & tr & Hret & Hrise & _).
  exists s', tr. split; [exact Hret|].
  apply Hrise; [reflexivity | discriminate].
Defined.

(** C3.  [schedPwm(idx, p)] on an active channel (both stored half-periods
    non-zero) overwrites [pwmInfo[idx]] with [p] and enqueues nothing: the
    queue is unchanged.  On a channel that is not active it overwrites
    [pwmInfo[idx]] with [p] and enqueues exactly one seed event
    [(now, idx, StepForward)]; that is the call once it has the mutex, and
    while the consumer holds the mutex the call waits.  No other slot of the
    table changes. *)
Theorem schedPwm_seeds_inactive_channel_only s idx p now :
  (isActive s idx →
   ∃ s' tr,
     schedPwm idx p now s = Returns (tt, s', tr)
     ∧ pwmInfo s' idx = p
     ∧ (∀ j, j ≠ idx → pwmInfo s' j = pwmInfo s j)
     ∧ eventQueue s' = eventQueue s
     ∧ insertsOf tr = [])
  ∧ (¬ isActive s idx → _lockPushes s = false →
     ∃ s' tr,
       schedPwm idx p now s = Returns (tt, s', tr)
       ∧ pwmInfo s' idx = p
       ∧ (∀ j, j ≠ idx → pwmInfo s' j = pwmInfo s j)
       ∧ eventQueue s' = eventQueue s ++ [mkEvent now idx StepForward]
       ∧ length (eventQueue s') = S (length (eventQueue s))
       ∧ insertsOf tr = [mkEvent now idx StepForward])
  ∧ (¬ isActive s idx → _lockPushes s = true → schedPwm idx p now s = Blocks).
Proof.
  assert (Hother : ∀ j, j ≠ idx → pwmInfo (set_pwmInfo idx p s) j = pwmInfo s j).
  { intros j Hj. simpl. apply N.eqb_neq in Hj. now rewrite Hj. }
  refine (conj _ (conj _ _)).
  - intros Ha. eexists _, _. split; [apply schedPwm_active, Ha|].
    simpl. rewrite N.eqb_refl. auto.
  - intros Ha Hl. eexists _, _. split.
    + rewrite schedPwm_inactive by exact Ha. rewrite Hl. reflexivity.
    + simpl. rewrite N.eqb_refl, length_app. simpl.
      repeat split; auto. lia.
  - intros Ha Hl. rewrite schedPwm_inactive by exact Ha. now rewrite Hl.
Qed.

Lemma schedPwm_seeds_inactive_channel_only_witness :
  (∃ s' tr,
     schedPwm 5%N (mkPwmInfo 500000 500000) t0 S2_scheduler = Returns (tt, s', tr)
     ∧ eventQueue s' = eventQueue S2_scheduler)
  ∧ (∃ s' tr,
       schedPwm 6%N (mkPwmInfo 500000 500000) t0 S2_scheduler = Returns (tt, s', tr)
       ∧ eventQueue s' = eventQueue S2_scheduler ++ [mkEvent t0 6%N StepForward]).
Proof.
  split.
  - destruct (schedPwm_seeds_inactive_channel_only S2_scheduler 5%N
                (mkPwmInfo 500000 500000) t0) as (Hactive & _).
    destruct Hactive as (s' & tr & Hret & _ & _ & Hq & _).
    + split; discriminate.
    + exists s', tr. split; assumption.
  - destruct (schedPwm_seeds_inactive_channel_only S2_scheduler 6%N
                (mkPwmInfo 500000 500000) t0) as (_ & Hinactive & _).
    destruct Hinactive as (s' & tr & Hret & _ & _ & Hq & _).
    + intros [Hh _]. apply Hh. reflexivity.
    + reflexivity.
    + exists s', tr. split; assumption.
Defined.

(** C4.  After any registrations at levels below the number of levels, the
    first [callExitHandlers] calls every registered handler exactly once, the
    levels in ascending order and within a level in the order of
    registration, and sets [isExiting]; every later call, finding [isExiting]
    set, returns at once, calls no handler and changes nothing. *)
Theorem callExitHandlers_runs_once_in_order (L : nat) (regs : list (Handler * N)) :
  Forall (λ r, (r.2 < N.of_nat L)%N) regs →
  ∃ st st1 tr,
    registerAll regs (ExitState_new L) = Returns (tt, st, [])
    ∧ callExitHandlers st = Returns (tt, st1, tr)
    ∧ handlersCalled tr = concat ((λ l, registeredAt (N.of_nat l) regs) <$> seq 0 L)
    ∧ handlersCalled tr ≡ₚ regs.*1
    ∧ isExiting st1 = true
    ∧ (∀ st2, isExiting st2 = true → callExitHandlers st2 = Returns (tt, st2, [])).
Proof.
  intros Hall.
  assert (Hperm : ∀ rs st st',
            registerAll rs st = Returns (tt, st', []) →
            concat (exitHandlers st') ≡ₚ concat (exitHandlers st) ++ rs.*1).
  { induction rs as [|[h lv] rs IH]; intros st st' Hr; simpl in Hr.
    - apply mret_inv in Hr as (_ & -> & _). simpl. now rewrite app_nil_r.
    - apply bind_inv in Hr as ([] & s1 & t1 & t2 & H1 & H2 & Ht).
      symmetry in Ht. apply app_eq_nil in Ht as [-> ->].
      assert (Hs1 : concat (exitHandlers s1) ≡ₚ h :: concat (exitHandlers st)).
      { unfold registerExitHandler, mbind, M_bind, get, modify, throw, undefined in H1.
        destruct (N.of_nat (length (exitHandlers st)) <? lv)%N; [discriminate|].
        destruct (exitHandlers st !! N.to_nat lv) as [v|] eqn:Hv; [|discriminate].
        injection H1 as <-. simpl. apply concat_insert_snoc, Hv. }
      rewrite (IH _ _ H2), Hs1. simpl. now rewrite <- Permutation_middle. }
  pose proof (registerAll_in_range regs (ExitState_new L)) as Hreg.
  simpl in Hreg. rewrite length_replicate in Hreg. specialize (Hreg Hall).
  rewrite imap_replicate_nil in Hreg.
  eexists _, _, _. split; [exact Hreg|].
  split; [apply callExitHandlers_first; reflexivity|].
  simpl. rewrite handlersCalled_CallHandler.
  split; [reflexivity|]. split.
  - apply Hperm in Hreg. simpl in Hreg. rewrite Hreg.
    replace (concat (replicate L [])) with (@nil Handler); [reflexivity|].
    clear. induction L as [|L IH]; simpl; auto.
  - split; [reflexivity | apply callExitHandlers_again].
Qed.

Lemma callExitHandlers_runs_once_in_order_witness :
  ∃ st st1 tr,
    registerAll S6_registrations (ExitState_new 2) = Returns (tt, st, [])
    ∧ callExitHandlers st = Returns (tt, st1, tr)
    ∧ handlersCalled tr = [1; 2; 3]%N
    ∧ callExitHandlers st1 = Returns (tt, st1, []).
Proof.
  destruct (callExitHandlers_runs_once_in_order 2 S6_registrations)
    as (st & st1 & tr & Hreg & Hcall & Horder & _ & Hexiting & Hagain).
  - repeat (constructor; [reflexivity|]). constructor.
  - exists st, st1, tr.
    split; [exact Hreg|]. split; [exact Hcall|]. split; [exact Horder|].
    apply Hagain, Hexiting.
Defined.

(** C5 (the code departs from the claim).  The claim: [registerExitHandler]
    throws exactly when [level] is outside [0, L), L being the number of
    levels, and then leaves the registry as it was.  The guard of the code is
    [level > exitHandlers.size()], so [level = L] passes it: the call does not
    throw and goes on to index the array one past its end, which is undefined
    behaviour.  Levels above L do throw, and levels below L register. *)
Theorem registerExitHandler_level_equal_to_size handler st :
  registerExitHandler handler (N.of_nat (length (exitHandlers st))) st = Undefined
  ∧ registerExitHandler handler 3 (ExitState_new 3) = Undefined
  ∧ registerExitHandler handler 4 (ExitState_new 3)
    = Throws "Tried to register an exit handler at too high of a level".
Proof.
  split; [apply registerExitHandler_at_size|]. split; reflexivity.
Qed.



(** C7 (the code departs from the claim).  The claim: on a non-empty queue
    [lastSchedTime] returns the largest deadline among the stored events.  On
    a new scheduler, after [queue] of the 30 ms event and [queue] of the 10 ms
    event, the code returns 10 ms, the deadline of [eventQueue.back()], while
    the largest stored deadline is 30 ms: [orderedInsert] has left the queue
    in insertion order, so its back is not the latest event. *)
Theorem lastSchedTime_not_largest_deadline :
  ∃ s' tr,
    run lastSched_history (Scheduler_new 512)
    = Returns ([ReplyVoid; ReplyVoid; ReplyTime (time S1_second)], s', tr)
    ∧ eventQueue s' = [S1_first; S1_second]
    ∧ largestDeadline (eventQueue s') = Some (time S1_first)
    ∧ timespecLt (time S1_second) (time S1_first) = true.
Proof.
  eexists _, _. split; [vm_compute; reflexivity|].
  split; [reflexivity|]. split; vm_compute; reflexivity.
Qed.

(** C8.  Along any history of completed calls, two events with equal
    deadlines leave the queue in the order they entered it: if [a] was stored
    before [b] (position [i] before position [j] among the events ever
    stored) and [b] has been returned by [nextEvent], then [a] has been
    returned too, earlier than [b].  The events returned are the first of the
    events stored, in the same order. *)
Theorem nextEvent_fifo_among_equal_deadlines cs s rs s' tr i j a b :
  run cs s = Returns (rs, s', tr) →
  (eventQueue s ++ insertsOf tr) !! i = Some a →
  (eventQueue s ++ insertsOf tr) !! j = Some b →
  i < j →
  time a = time b →
  j < length (returnedEvents rs) →
  returnedEvents rs !! i = Some a
  ∧ returnedEvents rs !! j = Some b
  ∧ returnedEvents rs
    = take (length (returnedEvents rs)) (eventQueue s ++ insertsOf tr).
Proof.
  intros Hrun Ha Hb Hij _ Hj.
  apply run_fifo in Hrun. rewrite Hrun in Ha, Hb |- *.
  rewrite lookup_app_l in Ha by lia. rewrite lookup_app_l in Hb by lia.
  rewrite take_app_length. auto.
Qed.

Lemma nextEvent_fifo_among_equal_deadlines_witness :
  ∃ rs s' tr,
    run tie_history (Scheduler_new 512) = Returns (rs, s', tr)
    ∧ returnedEvents rs !! 0 = Some tie_first
    ∧ returnedEvents rs !! 1 = Some tie_second.
Proof.
  assert (Hrun : ∃ s' tr,
            run tie_history (Scheduler_new 512)
            = Returns ([ReplyVoid; ReplyVoid; ReplyEvent tie_first; ReplyEvent tie_second],
                       s', tr)
            ∧ insertsOf tr = [tie_first; tie_second]).
  { eexists _, _. split; vm_compute; reflexivity. }
  destruct Hrun as (s' & tr & Hrun & Hins).
  exists [ReplyVoid; ReplyVoid; ReplyEvent tie_first; ReplyEvent tie_second], s', tr.
  split; [exact Hrun|].
  destruct (nextEvent_fifo_among_equal_deadlines tie_history (Scheduler_new 512)
              _ s' tr 0 1 tie_first tie_second Hrun) as (H0 & H1 & _).
  - rewrite Hins. reflexivity.
  - rewrite Hins. reflexivity.
  - lia.
  - reflexivity.
  - simpl. lia.
  - split; assumption.
Defined.

(** C9.  [orderedInsert(evt)] always appends [evt] at the back of the queue
    and leaves the stored events as they are.  The guard of the re-heapify
    branch compares the time of [evt] with the time of the back of the queue
    after the [push_back], that is with itself, and [timespecLt t t] is false,
    so [std::push_heap] is never reached.  Hence, along any history of
    completed calls, the queue holds the events ever stored, in the order of
    their insertion, less those already returned from the front. *)
Theorem orderedInsert_appends_at_back :
  (∀ t, timespecLt t t = false)
  ∧ (∀ q evt, (λ back, timespecLt (time evt) (time back)) <$> last (q ++ [evt])
              = Some false)
  ∧ (∀ evt s,
       orderedInsert evt s
       = Returns (tt, set_eventQueue (eventQueue s ++ [evt]) s, [Insert evt]))
  ∧ (∀ cs s rs s' tr,
       run cs s = Returns (rs, s', tr) →
       eventQueue s'
       = drop (length (returnedEvents rs)) (eventQueue s ++ insertsOf tr)).
Proof.
  split; [apply timespecLt_irrefl|].
  split; [intros q evt; rewrite last_snoc; simpl; now rewrite timespecLt_irrefl|].
  split; [apply orderedInsert_append|].
  intros cs s rs s' tr Hrun. apply run_fifo in Hrun.
  rewrite Hrun, drop_app_length. reflexivity.
Qed.

Lemma orderedInsert_appends_at_back_witness :
  ∃ rs s' tr,
    run S1_history (Scheduler_new 512) = Returns (rs, s', tr)
    ∧ eventQueue s' = drop 3 [S1_first; S1_second; S1_third].
Proof.
  assert (Hrun : ∃ s' tr,
            run S1_history (Scheduler_new 512)
            = Returns ([ReplyVoid; ReplyVoid; ReplyVoid;
                        ReplyEvent S1_first; ReplyEvent S1_second; ReplyEvent S1_third],
                       s', tr)
            ∧ insertsOf tr = [S1_first; S1_second; S1_third]).
  { eexists _, _. split; vm_compute; reflexivity. }
  destruct Hrun as (s' & tr & Hrun & Hins).
  eexists _, s', tr. split; [exact Hrun|].
  destruct orderedInsert_appends_at_back as (_ & _ & _ & Hfifo).
  rewrite (Hfifo _ _ _ _ _ Hrun), Hins. reflexivity.
Defined.

(** C10.  [initSchedThread] never fails: whatever [pthread_setschedparam]
    returns, the call returns normally and leaves the scheduler as it is; a
    non-zero result is logged as a warning and nothing else happens. *)
Theorem initSchedThread_never_fails (ret : Z) (s : Scheduler) :
  ∃ tr,
    initSchedThread ret s = Returns (tt, s, tr)
    ∧ (ret ≠ 0%Z →
       tr = [Log LogWarning
               "Warning: pthread_setschedparam (increase thread priority) at scheduler.cpp returned non-zero: %i\n"
               [ret]])
    ∧ (ret = 0%Z → tr = []).
Proof.
  unfold initSchedThread. destruct (Z.eqb_spec ret 0) as [->|Hne]; simpl.
  - exists []. split; [reflexivity|]. split; [congruence | reflexivity].
  - eexists. split; [reflexivity|]. split; [reflexivity | contradiction].
Qed.

Lemma initSchedThread_never_fails_witness :
  ∃ tr,
    initSchedThread 1 (Scheduler_new 512) = Returns (tt, Scheduler_new 512, tr)
    ∧ length tr = 1.
Proof.
  destruct (initSchedThread_never_fails 1 (Scheduler_new 512)) as (tr & Hret & Hwarn & _).
  exists tr. split; [exact Hret|].
  rewrite Hwarn by discriminate. reflexivity.
Defined.

(** * Further properties of the scheduler *)

Lemma runQueue_unlocked evts : ∀ s,
  _lockPushes s = false →
  runProducers (CallQueue <$> evts) s
  = Returns (tt, set_eventQueue (eventQueue s ++ evts) s, concat (queueEffects <$> evts)).
Proof.
  induction evts as [|e evts IH]; intros s Hl; simpl.
  - rewrite app_nil_r. destruct s; reflexivity.
  - assert (Hcall : callProducer (CallQueue e) s
                    = Returns (ReplyVoid, set_eventQueue (eventQueue s ++ [e]) s,
                               queueEffects e)).
    { simpl. unfold mbind, M_bind. rewrite queue_unlocked by exact Hl. reflexivity. }
    rewrite (bind_Returns _ _ _ _ _ _ Hcall). rewrite IH by exact Hl.
    simpl. rewrite <- app_assoc. reflexivity.
Qed.

(** X1.  [queue] has no capacity check.  While the consumer does not hold the
    mutex, any number of [queue] calls complete, whatever [bufferSize] is:
    the events are appended at the back in the order of the calls, each call
    notifies the consumer once, and nothing else of the scheduler changes. *)
Theorem queue_has_no_capacity_check evts s :
  _lockPushes s = false →
  ∃ s' tr,
    runProducers (CallQueue <$> evts) s = Returns (tt, s', tr)
    ∧ eventQueue s' = eventQueue s ++ evts
    ∧ length (eventQueue s') = length (eventQueue s) + length evts
    ∧ tr = concat (queueEffects <$> evts)
    ∧ bufferSize s' = bufferSize s
    ∧ pwmInfo s' = pwmInfo s
    ∧ _lockPushes s' = false ∧ _arePushesLocked s' = _arePushesLocked s.
Proof.
  intros Hl. eexists _, _. split; [apply runQueue_unlocked, Hl|].
  simpl. rewrite length_app. auto 10.
Qed.

Lemma queue_has_no_capacity_check_witness :
  ∃ s' tr,
    runProducers (CallQueue <$> [S1_first; S1_second; S1_third]) (Scheduler_new 2)
    = Returns (tt, s', tr)
    ∧ length (eventQueue s') = 3 ∧ bufferSize s' = 2%N.
Proof.
  destruct (queue_has_no_capacity_check [S1_first; S1_second; S1_third]
              (Scheduler_new 2) eq_refl)
    as (s' & tr & Hrun & _ & Hlen & _ & Hsize & _).
  exists s', tr. split; [exact Hrun|]. split; [exact Hlen | exact Hsize].
Defined.

(** X2.  Back-pressure acts through the mutex alone.  If a [nextEvent] call
    ends with the queue at or above [bufferSize], every [queue] and every
    [lastSchedTime] made after it waits; if it ends with the queue below
    [bufferSize], [queue] goes through and appends its event. *)
Theorem queue_blocks_after_full_nextEvent wakeups s s1 t1 evt rest e now :
  lockConsistent s →
  waitWhileEmpty wakeups (set_lockPushes true s) = Returns (tt, s1, t1) →
  eventQueue s1 = evt :: rest →
  ∃ s' tr,
    nextEvent wakeups s = Returns (evt, s', tr)
    ∧ ((bufferSize s' ≤ N.of_nat (length (eventQueue s')))%N →
       queue e s' = Blocks ∧ lastSchedTime now s' = Blocks)
    ∧ ((N.of_nat (length (eventQueue s')) < bufferSize s')%N →
       queue e s' = Returns (tt, set_eventQueue (eventQueue s' ++ [e]) s', queueEffects e)).
Proof.
  intros Hc Hwait Hq. eexists _, _.
  split; [apply (nextEvent_after_wait wakeups s s1 t1 evt rest Hc Hwait Hq)|].
  cbn [eventQueue bufferSize]. split.
  - intros Hge. apply N.ltb_ge in Hge.
    rewrite queue_locked, lastSchedTime_eq by (simpl; now rewrite Hge).
    simpl. now rewrite Hge.
  - intros Hlt. apply N.ltb_lt in Hlt.
    rewrite queue_unlocked by (simpl; now rewrite Hlt). reflexivity.
Qed.

Lemma queue_blocks_after_full_nextEvent_witness :
  ∃ s' tr,
    nextEvent [] (set_bufferSize 1 S2_scheduler)
    = Returns (mkEvent t0 5%N StepForward, s', tr)
    ∧ queue S1_first s' = Blocks.
Proof.
  destruct (queue_blocks_after_full_nextEvent [] (set_bufferSize 1 S2_scheduler)
              (set_lockPushes true (set_bufferSize 1 S2_scheduler)) []
              (mkEvent t0 5%N StepForward) [] S1_first t0 eq_refl eq_refl eq_refl)
    as (s' & tr & Hret & Hfull & _).
  exists s', tr. split; [exact Hret|].
  apply Hfull.
  rewrite (nextEvent_after_wait [] (set_bufferSize 1 S2_scheduler)
             (set_lockPushes true (set_bufferSize 1 S2_scheduler)) []
             (mkEvent t0 5%N StepForward) [] eq_refl eq_refl eq_refl) in Hret.
  injection Hret as <- _. vm_compute. discriminate.
Defined.

Lemma countChannel_app idx q1 q2 :
  countChannel idx (q1 ++ q2) = countChannel idx q1 + countChannel idx q2.
Proof. unfold countChannel. now rewrite filter_app, length_app. Qed.

Lemma countChannel_cons idx e q :
  countChannel idx (e :: q)
  = (if decide (stepperId e = idx) then 1 else 0) + countChannel idx q.
Proof.
  unfold countChannel. rewrite filter_cons.
  destruct (decide (stepperId e = idx)); reflexivity.
Qed.

Lemma regenerated_active pw evt :
  nsHigh (pw (stepperId evt)) ≠ 0%N → nsLow (pw (stepperId evt)) ≠ 0%N →
  regenerated pw evt
  = [mkEvent (timespecAddNano (time evt) (halfPeriod (pw (stepperId evt)) (direction evt)))
       (stepperId evt) (flipDirection (direction evt))].
Proof.
  intros Hh Hl. unfold regenerated. apply N.eqb_neq in Hh, Hl.
  destruct (direction evt); simpl; [now rewrite Hl | now rewrite Hh].
Qed.

Lemma regenerated_halfPeriod pw evt :
  regenerated pw evt
  = if (halfPeriod (pw (stepperId evt)) (direction evt) =? 0)%N then []
    else [mkEvent (timespecAddNano (time evt)
                     (halfPeriod (pw (stepperId evt)) (direction evt)))
            (stepperId evt) (flipDirection (direction evt))].
Proof. unfold regenerated. destruct (direction evt); reflexivity. Qed.

(** The regenerated edge, if any, is one event on the channel of [evt]; there
    is one when the channel is active. *)
Lemma regenerated_count pw evt idx :
  countChannel idx (regenerated pw evt)
  ≤ (if decide (stepperId evt = idx) then 1 else 0)
  ∧ (nsHigh (pw idx) ≠ 0%N → nsLow (pw idx) ≠ 0%N →
     countChannel idx (regenerated pw evt)
     = if decide (stepperId evt = idx) then 1 else 0).
Proof.
  unfold regenerated.
  destruct (direction evt);
    [destruct (N.eqb_spec (nsLow (pw (stepperId evt))) 0) as [Hz|Hz]
    |destruct (N.eqb_spec (nsHigh (pw (stepperId evt))) 0) as [Hz|Hz]];
    rewrite ?countChannel_cons; cbn [stepperId];
    destruct (decide (stepperId evt = idx)) as [<-|Hne];
    unfold countChannel; simpl; split; try lia; intros; try lia; congruence.
Qed.

Lemma nextEvent_after_wait_counts wakeups s s1 t1 evt rest :
  lockConsistent s →
  waitWhileEmpty wakeups (set_lockPushes true s) = Returns (tt, s1, t1) →
  eventQueue s1 = evt :: rest →
  ∃ s' tr,
    nextEvent wakeups s = Returns (evt, s', tr)
    ∧ lockConsistent s'
    ∧ pwmInfo s' = pwmInfo s1
    ∧ bufferSize s' = bufferSize s1
    ∧ length (eventQueue s') ≤ length (eventQueue s1)
    ∧ (∀ idx, countChannel idx (eventQueue s') ≤ countChannel idx (eventQueue s1))
    ∧ (∀ idx, isActive s1 idx →
         countChannel idx (eventQueue s') = countChannel idx (eventQueue s1)).
Proof.
  intros Hc Hwait Hq. eexists _, _.
  split; [apply (nextEvent_after_wait wakeups s s1 t1 evt rest Hc Hwait Hq)|].
  cbn [eventQueue pwmInfo bufferSize]. rewrite Hq.
  split; [reflexivity|]. split; [reflexivity|]. split; [reflexivity|].
  split; [|split].
  - rewrite length_app. simpl.
    pose proof (regenerated_count (pwmInfo s1) evt (stepperId evt)) as [Hle _].
    assert (Hlen : ∀ pw, length (regenerated pw evt) ≤ 1).
    { intros pw. unfold regenerated.
      destruct (direction evt); [destruct (_ =? _)%N | destruct (_ =? _)%N];
        simpl; lia. }
    specialize (Hlen (pwmInfo s1)). lia.
  - intros idx. rewrite countChannel_app, countChannel_cons.
    pose proof (regenerated_count (pwmInfo s1) evt idx) as [Hle _]. lia.
  - intros idx [Hh Hl]. rewrite countChannel_app, countChannel_cons.
    pose proof (regenerated_count (pwmInfo s1) evt idx) as [_ Heq].
    rewrite (Heq Hh Hl). lia.
Qed.

(** X3.  A [nextEvent] call takes the front event out of the queue and puts
    at most one event back, at the back, on the same channel and with the
    other direction; it puts exactly one back when the channel is active (both
    half-periods non-zero).  So it never makes the queue longer, never raises
    the number of queued events of any channel, keeps that number for every
    channel other than the one of the event handed out and for every active
    channel, and leaves the PWM table and [bufferSize] as they are.  Here
    [s1] is the scheduler when the wait of the call ends and [t1] the effects
    of the wait. *)
Theorem nextEvent_never_grows_queue wakeups s s1 t1 evt rest :
  lockConsistent s →
  waitWhileEmpty wakeups (set_lockPushes true s) = Returns (tt, s1, t1) →
  eventQueue s1 = evt :: rest →
  ∃ s' tr added,
    nextEvent wakeups s = Returns (evt, s', tr)
    ∧ eventQueue s' = rest ++ added
    ∧ insertsOf tr = insertsOf t1 ++ added
    ∧ length added ≤ 1
    ∧ (∀ e, e ∈ added →
         stepperId e = stepperId evt ∧ direction e = flipDirection (direction evt))
    ∧ (isActive s1 (stepperId evt) → length added = 1)
    ∧ pwmInfo s' = pwmInfo s1
    ∧ bufferSize s' = bufferSize s1
    ∧ length (eventQueue s') ≤ length (eventQueue s1)
    ∧ (∀ idx, countChannel idx (eventQueue s') ≤ countChannel idx (eventQueue s1))
    ∧ (∀ idx, idx ≠ stepperId evt →
         countChannel idx (eventQueue s') = countChannel idx (eventQueue s1))
    ∧ (∀ idx, isActive s1 idx →
         countChannel idx (eventQueue s') = countChannel idx (eventQueue s1)).
Proof.
  intros Hc Hwait Hq.
  destruct (nextEvent_after_wait_counts wakeups s s1 t1 evt rest Hc Hwait Hq)
    as (s' & tr & Hret & _ & Hpw & Hbs & Hlen & Hle & Hact).
  pose proof (nextEvent_after_wait wakeups s s1 t1 evt rest Hc Hwait Hq) as Hret'.
  rewrite Hret in Hret'. injection Hret' as Hs' Htr.
  exists s', tr, (regenerated (pwmInfo s1) evt).
  split; [exact Hret|].
  assert (Hqueue : eventQueue s' = rest ++ regenerated (pwmInfo s1) evt)
    by (rewrite Hs'; reflexivity).
  split; [exact Hqueue|]. split.
  { rewrite Htr, !insertsOf_app, insertsOf_Insert.
    assert (Hun : ∀ b : bool, insertsOf (if b then [] else [UnlockPushes]) = [])
      by (intros []; reflexivity).
    assert (Hlk : ∀ b : bool, insertsOf (if b then [] else [LockPushes]) = [])
      by (intros []; reflexivity).
    rewrite Hun, Hlk. simpl. now rewrite app_nil_r. }
  split.
  { rewrite regenerated_halfPeriod. destruct (_ =? _)%N; simpl; lia. }
  split.
  { intros e. rewrite regenerated_halfPeriod. destruct (_ =? _)%N.
    - intros He. inversion He.
    - intros He. apply list_elem_of_singleton in He. subst e. split; reflexivity. }
  split.
  { intros [Hh Hl]. now rewrite (regenerated_active (pwmInfo s1) evt Hh Hl). }
  split; [exact Hpw|]. split; [exact Hbs|]. split; [exact Hlen|].
  split; [exact Hle|]. split; [|exact Hact].
  intros idx Hne. rewrite Hqueue, Hq, countChannel_app, countChannel_cons.
  pose proof (regenerated_count (pwmInfo s1) evt idx) as [Hcount _].
  destruct (decide (stepperId evt = idx)) as [Heq|_]; [congruence | lia].
Qed.

Lemma nextEvent_never_grows_queue_witness :
  ∃ s' tr added,
    nextEvent [] S2_scheduler = Returns (mkEvent t0 5%N StepForward, s', tr)
    ∧ eventQueue s' = added
    ∧ length added = 1
    ∧ countChannel 5%N (eventQueue s') = 1.
Proof.
  destruct (nextEvent_never_grows_queue [] S2_scheduler
              (set_lockPushes true S2_scheduler) [] (mkEvent t0 5%N StepForward) []
              eq_refl eq_refl eq_refl)
    as (s' & tr & added & Hret & Hq & _ & _ & _ & Hone & _ & _ & _ & _ & _ & Hactive).
  exists s', tr, added. split; [exact Hret|]. split; [exact Hq|].
  split; [apply Hone; split; discriminate|].
  rewrite (Hactive 5%N); [reflexivity|]. split; discriminate.
Defined.

Lemma run_cons_Returns c cs s r s1 t1 :
  call c s = Returns (r, s1, t1) →
  run (c :: cs) s =
    match run cs s1 with
    | Returns (rs, s2, t2) => Returns (r :: rs, s2, t1 ++ t2)
    | Throws w => Throws w
    | Blocks => Blocks
    | Undefined => Undefined
    end.
Proof.
  intros Hcall. cbn [run]. rewrite (bind_Returns _ _ _ _ _ _ Hcall).
  unfold mbind, M_bind, mret, M_ret.
  destruct (run cs s1) as [[[rs s2] t2]| | |]; [|reflexivity..].
  now rewrite app_nil_r.
Qed.

Lemma call_nextEvent_Returns wakeups s evt s1 t1 :
  nextEvent wakeups s = Returns (evt, s1, t1) →
  call (CallNextEvent wakeups) s = Returns (ReplyEvent evt, s1, t1).
Proof.
  intros H. cbn [call]. rewrite (bind_Returns _ _ _ _ _ _ H).
  unfold mret, M_ret. now rewrite app_nil_r.
Qed.

(** One channel alone in the queue, active: the edges come out one after the
    other, each a half-period after the one before, directions alternating. *)
Lemma nextEvents_train n : ∀ s seed,
  lockConsistent s → eventQueue s = [seed] → isActive s (stepperId seed) →
  ∃ rs s' tr last,
    run (nextEvents n) s = Returns (rs, s', tr)
    ∧ length (returnedEvents rs) = n
    ∧ eventQueue s' = [last]
    ∧ pwmInfo s' = pwmInfo s
    ∧ (∀ e, returnedEvents rs !! 0 = Some e → e = seed)
    ∧ (∀ k e, returnedEvents rs !! k = Some e →
         stepperId e = stepperId seed
         ∧ direction e = Nat.iter k flipDirection (direction seed)
         ∧ ∀ e', returnedEvents rs !! S k = Some e' →
             toNanos (time e')
             = (toNanos (time e)
                + Z.of_N (halfPeriod (pwmInfo s (stepperId seed)) (direction e)))%Z).
Proof.
  induction n as [|n IH]; intros s seed Hc Hq Ha.
  - exists [], s, [], seed. repeat split; try assumption; discriminate.
  - destruct Ha as [Hh Hl].
    pose proof (nextEvent_after_wait [] s (set_lockPushes true s) [] seed [] Hc
                  (waitWhileEmpty_nonempty [] (set_lockPushes true s) seed [] Hq) Hq)
      as Hnext.
    cbn zeta in Hnext. cbn [pwmInfo set_lockPushes bufferSize] in Hnext.
    rewrite (regenerated_active (pwmInfo s) seed Hh Hl) in Hnext.
    set (edge := mkEvent _ _ _) in Hnext. simpl app in Hnext.
    match type of Hnext with _ = Returns (_, ?st, _) => set (s1 := st) in * end.
    destruct (IH s1 edge)
      as (rs & s' & tr & last & Hrun & Hlen & Hq' & Hpw & Hhead & Htrain);
      [reflexivity | reflexivity | split; assumption|].
    unfold nextEvents. cbn [replicate].
    rewrite (run_cons_Returns _ _ _ _ _ _ (call_nextEvent_Returns _ _ _ _ _ Hnext)).
    fold (nextEvents n). rewrite Hrun.
    eexists _, _, _, last. split; [reflexivity|].
    cbn [returnedEvents length]. rewrite Hlen.
    split; [reflexivity|]. split; [exact Hq'|]. split; [exact Hpw|].
    split; [now intros e [= <-]|].
    intros [|k] e Hk.
    + injection Hk as <-. split; [reflexivity|]. split; [reflexivity|].
      intros e' He'. cbn in He'. rewrite (Hhead e' He').
      apply toNanos_timespecAddNano.
    + cbn in Hk. destruct (Htrain k e Hk) as (Hid & Hdir & Hnextk).
      split; [exact Hid|]. split.
      * rewrite Hdir. cbn [direction edge]. now rewrite Nat.iter_succ_r.
      * intros e' He'. cbn in He'. exact (Hnextk e' He').
Qed.

Lemma iter_flipDirection_even m d : Nat.iter (2 * m) flipDirection d = d.
Proof.
  induction m as [|m IH]; [reflexivity|].
  replace (2 * S m) with (S (S (2 * m))) by lia.
  rewrite !Nat.iter_succ, IH. now destruct d.
Qed.

(** X4.  A channel alone in the queue with both half-periods non-zero yields
    a square wave.  From a rising seed, [n] calls of [nextEvent] return [n]
    edges of that channel, rising and falling in turn: the rising edges every
    [nsHigh + nsLow] from the seed's deadline on, each falling edge [nsHigh]
    after its rising edge.  One edge of the channel is left queued. *)
Theorem pwm_square_wave n s seed h l :
  lockConsistent s → eventQueue s = [seed] → direction seed = StepForward →
  pwmInfo s (stepperId seed) = mkPwmInfo h l → h ≠ 0%N → l ≠ 0%N →
  ∃ rs s' tr,
    run (nextEvents n) s = Returns (rs, s', tr)
    ∧ length (returnedEvents rs) = n
    ∧ length (eventQueue s') = 1
    ∧ ∀ m e,
        (returnedEvents rs !! (2 * m) = Some e →
         stepperId e = stepperId seed ∧ direction e = StepForward
         ∧ toNanos (time e)
           = (toNanos (time seed) + Z.of_nat m * Z.of_N (h + l))%Z)
        ∧ (returnedEvents rs !! (2 * m + 1) = Some e →
           stepperId e = stepperId seed ∧ direction e = StepBackward
           ∧ toNanos (time e)
             = (toNanos (time seed) + Z.of_nat m * Z.of_N (h + l) + Z.of_N h)%Z).
Proof.
  intros Hc Hq Hdir Hpw Hh Hl.
  destruct (nextEvents_train n s seed Hc Hq)
    as (rs & s' & tr & last & Hrun & Hlen & Hq' & _ & Hhead & Htrain).
  { unfold isActive. rewrite Hpw. simpl. auto. }
  exists rs, s', tr. split; [exact Hrun|]. split; [exact Hlen|].
  split; [now rewrite Hq'|].
  rewrite Hpw, Hdir in Htrain.
  assert (Hprev : ∀ k e, returnedEvents rs !! S k = Some e →
                         ∃ e0, returnedEvents rs !! k = Some e0).
  { intros k e He. apply lookup_lt_is_Some_2.
    apply lookup_lt_Some in He. lia. }
  induction m as [|m IH]; intros e.
  - assert (H0 : ∀ e0, returnedEvents rs !! 0 = Some e0 →
                       stepperId e0 = stepperId seed ∧ direction e0 = StepForward
                       ∧ toNanos (time e0) = (toNanos (time seed) + 0 * Z.of_N (h + l))%Z).
    { intros e0 He0. rewrite (Hhead e0 He0). repeat split; [exact Hdir | lia]. }
    split; [apply H0|]. cbn [Nat.mul Nat.add]. intros He.
    destruct (Hprev 0 e He) as [e0 He0].
    destruct (H0 e0 He0) as (_ & Hd0 & Ht0).
    destruct (Htrain 0 e0 He0) as (_ & _ & Hstep).
    destruct (Htrain 1 e He) as (Hid & Hd & _).
    rewrite (Hstep e He), Hd0, Ht0. cbn in Hd. simpl. repeat split; auto; lia.
  - replace (2 * S m) with (S (2 * m + 1)) by lia.
    replace (S (2 * m + 1) + 1) with (S (S (2 * m + 1))) by lia.
    assert (Hrise : ∀ e2, returnedEvents rs !! S (2 * m + 1) = Some e2 →
                          stepperId e2 = stepperId seed ∧ direction e2 = StepForward
                          ∧ toNanos (time e2)
                            = (toNanos (time seed) + Z.of_nat (S m) * Z.of_N (h + l))%Z).
    { intros e2 He2. destruct (Hprev _ _ He2) as [e1 He1].
      destruct (IH e1) as [_ Hfall]. destruct (Hfall He1) as (_ & Hd1 & Ht1).
      destruct (Htrain _ e1 He1) as (_ & _ & Hstep).
      destruct (Htrain _ e2 He2) as (Hid & Hd & _).
      replace (S (2 * m + 1)) with (2 * S m) in Hd by lia.
      rewrite iter_flipDirection_even in Hd.
      rewrite (Hstep e2 He2), Hd1, Ht1. simpl. repeat split; auto; lia. }
    split; [apply Hrise|]. intros He.
    destruct (Hprev _ _ He) as [e2 He2].
    destruct (Hrise e2 He2) as (_ & Hd2 & Ht2).
    destruct (Htrain _ e2 He2) as (_ & _ & Hstep).
    destruct (Htrain _ e He) as (Hid & Hd & _).
    replace (S (S (2 * m + 1))) with (S (2 * S m)) in Hd by lia.
    rewrite Nat.iter_succ, iter_flipDirection_even in Hd.
    rewrite (Hstep e He), Hd2, Ht2. simpl. repeat split; auto; lia.
Qed.

Lemma pwm_square_wave_witness :
  ∃ rs s' tr,
    run (nextEvents 3) S2_scheduler = Returns (rs, s', tr)
    ∧ length (returnedEvents rs) = 3
    ∧ length (eventQueue s') = 1.
Proof.
  destruct (pwm_square_wave 3 S2_scheduler (mkEvent t0 5%N StepForward)
              1000000 2000000 eq_refl eq_refl eq_refl eq_refl)
    as (rs & s' & tr & Hrun & Hlen & Hq & _); [discriminate | discriminate|].
  exists rs, s', tr. split; [exact Hrun|]. split; [exact Hlen | exact Hq].
Defined.

(** X5.  A new duty set by [schedPwm] on an active channel applies from the
    next edge on.  The call enqueues nothing and returns even while the
    consumer holds the mutex; the [nextEvent] that pops the pending edge of
    the channel then regenerates with the new half-period, or regenerates
    nothing when the new half-period is zero. *)
Theorem schedPwm_update_applies_to_next_edge s evt rest p now :
  lockConsistent s → eventQueue s = evt :: rest → isActive s (stepperId evt) →
  ∃ s1 t1 s' tr,
    schedPwm (stepperId evt) p now s = Returns (tt, s1, t1)
    ∧ eventQueue s1 = eventQueue s ∧ insertsOf t1 = []
    ∧ nextEvent [] s1 = Returns (evt, s', tr)
    ∧ eventQueue s'
      = rest ++ (if (halfPeriod p (direction evt) =? 0)%N then []
                 else [mkEvent (timespecAddNano (time evt) (halfPeriod p (direction evt)))
                         (stepperId evt) (flipDirection (direction evt))]).
Proof.
  intros Hc Hq Ha. eexists _, _, _, _.
  split; [apply schedPwm_active, Ha|]. split; [reflexivity|]. split; [reflexivity|].
  split.
  - apply (nextEvent_after_wait [] (set_pwmInfo (stepperId evt) p s)
             (set_lockPushes true (set_pwmInfo (stepperId evt) p s)) [] evt rest Hc).
    + apply (waitWhileEmpty_nonempty _ _ evt rest). exact Hq.
    + exact Hq.
  - cbn [eventQueue]. rewrite regenerated_halfPeriod. simpl.
    now rewrite N.eqb_refl.
Qed.

Lemma schedPwm_update_applies_to_next_edge_witness :
  ∃ s1 t1 s' tr,
    schedPwm 5%N (mkPwmInfo 500000 500000) t0 S2_scheduler = Returns (tt, s1, t1)
    ∧ nextEvent [] s1 = Returns (mkEvent t0 5%N StepForward, s', tr)
    ∧ eventQueue s' = [mkEvent (timespecAddNano t0 500000) 5%N StepBackward].
Proof.
  destruct (schedPwm_update_applies_to_next_edge S2_scheduler
              (mkEvent t0 5%N StepForward) [] (mkPwmInfo 500000 500000) t0
              eq_refl eq_refl)
    as (s1 & t1 & s' & tr & Hsched & _ & _ & Hnext & Hq).
  - split; discriminate.
  - exists s1, t1, s', tr. split; [exact Hsched|]. split; [exact Hnext | exact Hq].
Defined.

Lemma nextEvent_quiet_channel wakeups s s1 t1 evt rest idx :
  lockConsistent s →
  waitWhileEmpty wakeups (set_lockPushes true s) = Returns (tt, s1, t1) →
  eventQueue s1 = evt :: rest →
  pwmInfo s1 idx = mkPwmInfo 0 0 →
  ∃ s' tr,
    nextEvent wakeups s = Returns (evt, s', tr)
    ∧ lockConsistent s'
    ∧ pwmInfo s' = pwmInfo s1
    ∧ countChannel idx [evt] + countChannel idx (eventQueue s')
      = countChannel idx (eventQueue s1).
Proof.
  intros Hc Hwait Hq Hquiet. eexists _, _.
  split; [apply (nextEvent_after_wait wakeups s s1 t1 evt rest Hc Hwait Hq)|].
  cbn [eventQueue pwmInfo]. split; [reflexivity|]. split; [reflexivity|].
  rewrite Hq, countChannel_app, !countChannel_cons.
  assert (countChannel idx (regenerated (pwmInfo s1) evt) = 0) as ->.
  { pose proof (regenerated_count (pwmInfo s1) evt idx) as [Hle _].
    destruct (decide (stepperId evt = idx)) as [Heq|Hne]; [|lia].
    rewrite regenerated_halfPeriod, Heq, Hquiet.
    destruct (direction evt); reflexivity. }
  unfold countChannel at 1. simpl. lia.
Qed.

Lemma returnedEvents_cons_event evt rs :
  returnedEvents (ReplyEvent evt :: rs) = evt :: returnedEvents rs.
Proof. reflexivity. Qed.

(** What a run of [nextEvent] calls is made of: the first call, entered with
    an event in the queue, and the run of the others. *)
Lemma run_nextEvents_inv n s rs s' tr :
  lockConsistent s →
  run (nextEvents (S n)) s = Returns (rs, s', tr) →
  ∃ evt rest s1 t1 rs1 t2,
    eventQueue s = evt :: rest
    ∧ nextEvent [] s = Returns (evt, s1, t1)
    ∧ run (nextEvents n) s1 = Returns (rs1, s', t2)
    ∧ rs = ReplyEvent evt :: rs1.
Proof.
  intros Hc Hrun. unfold nextEvents in Hrun. cbn [replicate run] in Hrun.
  apply bind_inv in Hrun as (r & s1 & t1 & t2 & Hcall & Hrest & _).
  apply bind_inv in Hrest as (rs1 & s2 & t3 & t4 & Hrun1 & Hret & _).
  apply mret_inv in Hret as (-> & -> & _).
  cbn [call] in Hcall.
  apply bind_inv in Hcall as (evt & s3 & t5 & t6 & Hnext & Hret & _).
  apply mret_inv in Hret as (-> & -> & _).
  destruct (nextEvent_inv_wait _ _ _ _ _ Hc Hnext) as (sw & tw & rest & Hwait & Hq).
  destruct (eventQueue s) as [|e0 q0] eqn:Hq0.
  - rewrite nextEvent_empty in Hnext by assumption. discriminate.
  - rewrite (waitWhileEmpty_nonempty [] (set_lockPushes true s) e0 q0 Hq0) in Hwait.
    injection Hwait as <- _. simpl in Hq. rewrite Hq0 in Hq. injection Hq as -> ->.
    exists evt, rest, s3, t5, rs1, t3. auto.
Qed.

(** X6.  A channel with both half-periods zero gets no new edge from
    [nextEvent].  Along any run of [nextEvent] calls, the edges of the channel
    handed out and the edges of the channel still queued add up to the edges
    of the channel queued at the start: after a stop, only the edges already
    pending come out. *)
Theorem quiet_channel_gets_no_new_edge n : ∀ s idx rs s' tr,
  lockConsistent s →
  pwmInfo s idx = mkPwmInfo 0 0 →
  run (nextEvents n) s = Returns (rs, s', tr) →
  countChannel idx (returnedEvents rs) + countChannel idx (eventQueue s')
  = countChannel idx (eventQueue s).
Proof.
  induction n as [|n IH]; intros s idx rs s' tr Hc Hquiet Hrun.
  - apply mret_inv in Hrun as (-> & -> & _). reflexivity.
  - destruct (run_nextEvents_inv n s rs s' tr Hc Hrun)
      as (evt & rest & s1 & t1 & rs1 & t2 & Hq & Hnext & Hrun1 & ->).
    destruct (nextEvent_quiet_channel [] s (set_lockPushes true s) [] evt rest idx Hc)
      as (s1' & t1' & Hnext' & Hc1 & Hpw1 & Hcount);
      [apply (waitWhileEmpty_nonempty _ _ evt rest); exact Hq | exact Hq | exact Hquiet|].
    rewrite Hnext in Hnext'. injection Hnext' as <- <-.
    simpl in Hcount, Hpw1.
    rewrite returnedEvents_cons_event.
    change (evt :: returnedEvents rs1) with ([evt] ++ returnedEvents rs1).
    rewrite countChannel_app, <- Hcount, <- Nat.add_assoc. f_equal.
    apply (IH s1 idx rs1 s' t2 Hc1); [now rewrite Hpw1 | exact Hrun1].
Qed.

Lemma quiet_channel_gets_no_new_edge_witness :
  ∃ rs s' tr,
    run (nextEvents 2) S1_out_of_order = Returns (rs, s', tr)
    ∧ countChannel 1%N (returnedEvents rs) + countChannel 1%N (eventQueue s') = 1.
Proof.
  assert (Hrun : ∃ s' tr,
            run (nextEvents 2) S1_out_of_order
            = Returns ([ReplyEvent S1_first; ReplyEvent S1_second], s', tr)).
  { eexists _, _. vm_compute. reflexivity. }
  destruct Hrun as (s' & tr & Hrun).
  exists [ReplyEvent S1_first; ReplyEvent S1_second], s', tr.
  split; [exact Hrun|].
  exact (quiet_channel_gets_no_new_edge 2 S1_out_of_order 1%N _ s' tr
           eq_refl eq_refl Hrun).
Defined.

(** X7.  [schedPwm] seeds whenever the stored duty is not active, whatever
    the new duty is.  A stop, [schedPwm(idx, 0, 0)], on a channel that is
    already stopped therefore enqueues a rising edge; [nextEvent] hands that
    edge out and regenerates nothing, so no falling edge follows it. *)
Theorem schedPwm_stop_on_quiet_channel_emits_edge s idx now :
  lockConsistent s → _lockPushes s = false → eventQueue s = [] →
  ¬ isActive s idx →
  ∃ s1 t1 s' tr,
    schedPwm idx (mkPwmInfo 0 0) now s = Returns (tt, s1, t1)
    ∧ eventQueue s1 = [mkEvent now idx StepForward]
    ∧ nextEvent [] s1 = Returns (mkEvent now idx StepForward, s', tr)
    ∧ eventQueue s' = []
    ∧ insertsOf tr = [].
Proof.
  intros Hc Hl Hq Ha.
  pose proof (schedPwm_inactive s idx (mkPwmInfo 0 0) now Ha) as Hsched.
  rewrite Hl, Hq in Hsched. simpl app in Hsched.
  eexists _, _, _, _. split; [exact Hsched|]. split; [reflexivity|].
  match type of Hsched with _ = Returns (_, ?st, _) => set (s1 := st) in * end.
  assert (Hregen : regenerated (pwmInfo s1) (mkEvent now idx StepForward) = []).
  { unfold regenerated. simpl. now rewrite N.eqb_refl. }
  pose proof (nextEvent_after_wait [] s1 (set_lockPushes true s1) []
                (mkEvent now idx StepForward) [] Hc eq_refl eq_refl) as Hnext.
  cbn zeta in Hnext. cbn [pwmInfo set_lockPushes] in Hnext. rewrite Hregen in Hnext.
  split; [exact Hnext|]. split; [reflexivity|].
  rewrite !insertsOf_app.
  assert (Hun : ∀ b : bool, insertsOf (if b then [] else [UnlockPushes]) = [])
    by (intros []; reflexivity).
  assert (Hlk : ∀ b : bool, insertsOf (if b then [] else [LockPushes]) = [])
    by (intros []; reflexivity).
  rewrite Hun, Hlk. reflexivity.
Qed.

Lemma schedPwm_stop_on_quiet_channel_emits_edge_witness :
  ∃ s1 t1 s' tr,
    schedPwm 7%N (mkPwmInfo 0 0) t0 (Scheduler_new 512) = Returns (tt, s1, t1)
    ∧ nextEvent [] s1 = Returns (mkEvent t0 7%N StepForward, s', tr)
    ∧ eventQueue s' = [].
Proof.
  destruct (schedPwm_stop_on_quiet_channel_emits_edge (Scheduler_new 512) 7%N t0
              eq_refl eq_refl eq_refl)
    as (s1 & t1 & s' & tr & Hsched & _ & Hnext & Hq & _).
  - intros [Hh _]. apply Hh. reflexivity.
  - exists s1, t1, s', tr. split; [exact Hsched|]. split; [exact Hnext | exact Hq].
Defined.

Lemma run_nextEvents_active n : ∀ s idx rs s' tr,
  lockConsistent s → isActive s idx →
  run (nextEvents n) s = Returns (rs, s', tr) →
  countChannel idx (eventQueue s') = countChannel idx (eventQueue s)
  ∧ isActive s' idx.
Proof.
  induction n as [|n IH]; intros s idx rs s' tr Hc Ha Hrun.
  - apply mret_inv in Hrun as (-> & -> & _). auto.
  - destruct (run_nextEvents_inv n s rs s' tr Hc Hrun)
      as (evt & rest & s1 & t1 & rs1 & t2 & Hq & Hnext & Hrun1 & ->).
    destruct (nextEvent_after_wait_counts [] s (set_lockPushes true s) [] evt rest Hc)
      as (s1' & t1' & Hnext' & Hc1 & Hpw1 & _ & _ & _ & Hcount);
      [apply (waitWhileEmpty_nonempty _ _ evt rest); exact Hq | exact Hq|].
    rewrite Hnext in Hnext'. injection Hnext' as <- <-.
    simpl in Hcount, Hpw1.
    assert (Ha1 : isActive s1 idx) by (unfold isActive; now rewrite Hpw1).
    destruct (IH s1 idx rs1 s' t2 Hc1 Ha1 Hrun1) as [Heq Ha'].
    split; [|exact Ha']. rewrite Heq. apply Hcount. exact Ha.
Qed.

(** X8.  Stopping an active channel and starting it again before its pending
    edge has come out starts a second train of edges.  The stop leaves the
    pending edges queued, the start finds the stored duty stopped and seeds
    once more, so the channel has one more edge queued than before; no run of
    [nextEvent] calls brings that number down again. *)
Theorem schedPwm_restart_adds_second_train s idx p now1 now2 :
  lockConsistent s → _lockPushes s = false → isActive s idx →
  nsHigh p ≠ 0%N → nsLow p ≠ 0%N →
  ∃ s2 tr2,
    (schedPwm idx (mkPwmInfo 0 0) now1 ;; schedPwm idx p now2) s = Returns (tt, s2, tr2)
    ∧ eventQueue s2 = eventQueue s ++ [mkEvent now2 idx StepForward]
    ∧ countChannel idx (eventQueue s2) = S (countChannel idx (eventQueue s))
    ∧ ∀ n rs s' tr,
        run (nextEvents n) s2 = Returns (rs, s', tr) →
        countChannel idx (eventQueue s') = S (countChannel idx (eventQueue s)).
Proof.
  intros Hc Hl Ha Hh Hlow.
  pose proof (schedPwm_active s idx (mkPwmInfo 0 0) now1 Ha) as Hstop.
  match type of Hstop with _ = Returns (_, ?st, _) => set (s1 := st) in * end.
  assert (Ha1 : ¬ isActive s1 idx).
  { intros [Hh1 _]. apply Hh1. simpl. now rewrite N.eqb_refl. }
  pose proof (schedPwm_inactive s1 idx p now2 Ha1) as Hstart.
  change (_lockPushes s1) with (_lockPushes s) in Hstart. rewrite Hl in Hstart.
  match type of Hstart with _ = Returns (_, ?st, _) => set (s2 := st) in * end.
  assert (Hcount : countChannel idx (eventQueue s2) = S (countChannel idx (eventQueue s))).
  { simpl. rewrite countChannel_app, countChannel_cons. simpl.
    destruct (decide (idx = idx)); [|congruence]. unfold countChannel at 2. simpl. lia. }
  eexists s2, _. split.
  - rewrite (bind_Returns _ _ _ _ _ _ Hstop). rewrite Hstart. reflexivity.
  - split; [reflexivity|]. split; [exact Hcount|].
    intros n rs s' tr Hrun.
    destruct (run_nextEvents_active n s2 idx rs s' tr) as [Heq _];
      [exact Hc | | exact Hrun | now rewrite Heq].
    split; simpl; now rewrite N.eqb_refl.
Qed.

Lemma schedPwm_restart_adds_second_train_witness :
  ∃ s2 tr2,
    (schedPwm 5%N (mkPwmInfo 0 0) t0 ;; schedPwm 5%N (mkPwmInfo 1000000 2000000) t0)
      S2_scheduler
    = Returns (tt, s2, tr2)
    ∧ countChannel 5%N (eventQueue s2) = 2.
Proof.
  destruct (schedPwm_restart_adds_second_train S2_scheduler 5%N
              (mkPwmInfo 1000000 2000000) t0 t0 eq_refl eq_refl)
    as (s2 & tr2 & Hrun & _ & Hcount & _).
  - split; discriminate.
  - discriminate.
  - discriminate.
  - exists s2, tr2. split; [exact Hrun | exact Hcount].
Defined.

Lemma callProducer_returnsOrBlocks c s : returnsOrBlocks (callProducer c s).
Proof.
  destruct (_lockPushes s) eqn:Hl.
  - destruct c as [evt|idx p now|now|size|]; simpl; unfold mbind, M_bind.
    + now rewrite queue_locked.
    + destruct (isActive_dec s idx) as [Ha|Ha].
      * now rewrite schedPwm_active.
      * rewrite schedPwm_inactive by exact Ha. now rewrite Hl.
    + now rewrite lastSchedTime_eq, Hl.
    + exact I.
    + exact I.
  - destruct (callProducer_returns c s Hl) as (r & s' & tr & ->). exact I.
Qed.

Lemma call_returnsOrBlocks c s : lockConsistent s → returnsOrBlocks (call c s).
Proof.
  intros Hc. destruct c as [c|wakeups]; cbn [call].
  - apply callProducer_returnsOrBlocks.
  - destruct (nextEvent_returns_or_waits wakeups s Hc) as [(evt & s' & tr & H)|H];
      unfold mbind, M_bind; rewrite H; exact I.
Qed.

Lemma lockDiscipline_app t1 : ∀ held t2,
  lockDiscipline held (t1 ++ t2)
  = match lockDiscipline held t1 with
    | Some held' => lockDiscipline held' t2
    | None => None
    end.
Proof.
  induction t1 as [|e t1 IH]; intros held t2; [reflexivity|].
  destruct e, held; simpl; auto.
Qed.

Lemma lockDiscipline_no_lockOps tr : ∀ held,
  lockOpsOf tr = [] → lockDiscipline held tr = Some held.
Proof.
  induction tr as [|e tr IH]; intros held Hops; [reflexivity|].
  destruct e; simpl in *; try discriminate; auto.
Qed.

Lemma call_lockDiscipline c s r s' tr :
  lockConsistent s → call c s = Returns (r, s', tr) →
  lockDiscipline (_lockPushes s) tr = Some (_lockPushes s').
Proof.
  intros Hc. destruct c as [c|wakeups]; cbn [call]; intros H.
  - apply callProducer_step in H as (_ & Hl & _ & Hops).
    rewrite Hl. now apply lockDiscipline_no_lockOps.
  - apply bind_inv in H as (evt & s1 & t1 & t2 & H1 & H2 & ->).
    apply mret_inv in H2 as (-> & -> & ->). rewrite app_nil_r.
    destruct (nextEvent_inv_wait _ _ _ _ _ Hc H1) as (sw & tw & rest & Hwait & Hq).
    rewrite (nextEvent_after_wait wakeups s sw tw evt rest Hc Hwait Hq) in H1.
    injection H1 as <- <-.
    destruct (waitWhileEmpty_step _ _ _ _ Hwait) as (_ & _ & _ & _ & Hops).
    cbn [_lockPushes]. unfold lockConsistent in Hc. rewrite Hc.
    destruct (_arePushesLocked s); cbn [app lockDiscipline];
      rewrite lockDiscipline_app, (lockDiscipline_no_lockOps tw) by exact Hops;
      rewrite lockDiscipline_app, lockDiscipline_no_lockOps by apply lockOpsOf_Insert;
      destruct (negb _); reflexivity.
Qed.

(** X9.  With the calls taken one at a time, from a scheduler whose flag
    agrees with the ownership of the mutex, so from a new scheduler, the
    consumer keeps the discipline of its lock along every history: [lock] and
    [unlock] on [_lockPushes] alternate, the lock is never taken while owned
    nor released or waited on while not owned, and [front()] is never taken
    of an empty queue.  Every history either completes, with the flag and the
    ownership in agreement again, or stops at a call that waits.  Accesses of
    two threads at the same time, such as [schedPwm] writing the PWM table
    without the mutex, are outside this statement. *)
Theorem run_never_throws cs : ∀ s,
  lockConsistent s →
  returnsOrBlocks (run cs s)
  ∧ ∀ rs s' tr, run cs s = Returns (rs, s', tr) →
      lockConsistent s'
      ∧ lockDiscipline (_lockPushes s) tr = Some (_lockPushes s').
Proof.
  induction cs as [|c cs IH]; intros s Hc.
  - split; [exact I|]. intros rs s' tr H.
    apply mret_inv in H as (_ & -> & ->). split; [exact Hc | reflexivity].
  - pose proof (call_returnsOrBlocks c s Hc) as Hcall.
    destruct (call c s) as [[[r s1] t1]| | |] eqn:Hcs; try contradiction.
    + rewrite (run_cons_Returns _ _ _ _ _ _ Hcs).
      destruct (IH s1 (call_lockConsistent _ _ _ _ _ Hc Hcs)) as [Hrest Hall].
      destruct (run cs s1) as [[[rs s2] t2]| | |]; try contradiction.
      * split; [exact I|]. intros rs' s' tr [= <- <- <-].
        destruct (Hall rs s2 t2 eq_refl) as [Hc2 Hd2]. split; [exact Hc2|].
        rewrite lockDiscipline_app, (call_lockDiscipline _ _ _ _ _ Hc Hcs).
        exact Hd2.
      * split; [exact I | discriminate].
    + split; [|cbn [run]; unfold mbind, M_bind; rewrite Hcs; discriminate].
      cbn [run]. unfold mbind, M_bind. rewrite Hcs. exact I.
Qed.

Lemma run_never_throws_witness :
  returnsOrBlocks (run (S1_history ++ [CallNextEvent []]) (Scheduler_new 512))
  ∧ ∃ rs s' tr,
      run S1_history (Scheduler_new 512) = Returns (rs, s', tr)
      ∧ lockOpsOf tr
        = [LockPushes; UnlockPushes; LockPushes; UnlockPushes; LockPushes; UnlockPushes]
      ∧ lockDiscipline false tr = Some (_lockPushes s').
Proof.
  split.
  - exact (proj1 (run_never_throws (S1_history ++ [CallNextEvent []])
                    (Scheduler_new 512) eq_refl)).
  - assert (Hrun : ∃ rs s' tr,
              run S1_history (Scheduler_new 512) = Returns (rs, s', tr)
              ∧ lockOpsOf tr
                = [LockPushes; UnlockPushes; LockPushes; UnlockPushes;
                   LockPushes; UnlockPushes]).
    { eexists _, _, _. split; vm_compute; reflexivity. }
    destruct Hrun as (rs & s' & tr & Hrun & Hops).
    exists rs, s', tr. split; [exact Hrun|]. split; [exact Hops|].
    exact (proj2 (proj2 (run_never_throws S1_history (Scheduler_new 512) eq_refl)
                    rs s' tr Hrun)).
Defined.

(** X10.  [registerExitHandler] at a level below the number of levels appends
    the handler at the end of that level and touches nothing else: the other
    levels, the number of levels and [isExiting] stay, and nothing is called.
    At a level above the number of levels it throws, with no change to the
    registry. *)
Theorem registerExitHandler_appends_in_range handler level st :
  ((level < N.of_nat (length (exitHandlers st)))%N →
   ∃ st' v,
     registerExitHandler handler level st = Returns (tt, st', [])
     ∧ exitHandlers st !! N.to_nat level = Some v
     ∧ exitHandlers st' !! N.to_nat level = Some (v ++ [handler])
     ∧ (∀ j, j ≠ N.to_nat level → exitHandlers st' !! j = exitHandlers st !! j)
     ∧ length (exitHandlers st') = length (exitHandlers st)
     ∧ isExiting st' = isExiting st)
  ∧ ((N.of_nat (length (exitHandlers st)) < level)%N →
     registerExitHandler handler level st
     = Throws "Tried to register an exit handler at too high of a level").
Proof.
  split; [|apply registerExitHandler_above].
  intros Hlt. destruct (registerExitHandler_in_range handler level st Hlt) as (v & Hv & Hreg).
  eexists _, v. split; [exact Hreg|]. split; [exact Hv|]. simpl.
  split; [apply list_lookup_insert_eq; lia|].
  split; [intros j Hj; apply list_lookup_insert_ne; congruence|].
  split; [apply length_insert | reflexivity].
Qed.

Lemma registerExitHandler_appends_in_range_witness :
  (∃ st', registerExitHandler 9%N 1%N (ExitState_new 2) = Returns (tt, st', [])
          ∧ exitHandlers st' !! 1 = Some [9%N])
  ∧ registerExitHandler 9%N 3%N (ExitState_new 2)
    = Throws "Tried to register an exit handler at too high of a level".
Proof.
  destruct (registerExitHandler_appends_in_range 9%N 1%N (ExitState_new 2)) as [Hin _].
  destruct (registerExitHandler_appends_in_range 9%N 3%N (ExitState_new 2)) as [_ Habove].
  split; [|apply Habove; reflexivity].
  destruct Hin as (st' & v & Hreg & Hv & Hv' & _); [reflexivity|].
  exists st'. split; [exact Hreg|]. injection Hv as <-. exact Hv'.
Defined.

(** X11.  [registerExitHandler] does not look at [isExiting].  A handler
    registered after the first [callExitHandlers] is taken into the registry
    and never called: the second [callExitHandlers] returns at once. *)
Theorem handler_registered_after_exit_is_never_called handler level st :
  isExiting st = false →
  (level < N.of_nat (length (exitHandlers st)))%N →
  ∃ st' tr v,
    (callExitHandlers ;; registerExitHandler handler level ;; callExitHandlers) st
    = Returns (tt, st', tr)
    ∧ exitHandlers st !! N.to_nat level = Some v
    ∧ exitHandlers st' !! N.to_nat level = Some (v ++ [handler])
    ∧ handlersCalled tr = concat (exitHandlers st)
    ∧ callExitHandlers st' = Returns (tt, st', []).
Proof.
  intros He Hlt.
  pose proof (callExitHandlers_first st He) as Hfirst.
  match type of Hfirst with _ = Returns (_, ?x, _) => set (st1 := x) in * end.
  destruct (registerExitHandler_in_range handler level st1 Hlt) as (v & Hv & Hreg).
  match type of Hreg with _ = Returns (_, ?x, _) => set (st2 := x) in * end.
  pose proof (callExitHandlers_again st2 eq_refl) as Hagain.
  exists st2, (Log LogInfo "Exiting\n" [] :: (CallHandler <$> concat (exitHandlers st))), v.
  split.
  - rewrite (bind_Returns _ _ _ _ _ _ Hfirst), (bind_Returns _ _ _ _ _ _ Hreg), Hagain.
    simpl. now rewrite !app_nil_r.
  - split; [exact Hv|].
    split; [simpl; apply list_lookup_insert_eq; simpl; lia|].
    split; [simpl; apply handlersCalled_CallHandler | exact Hagain].
Qed.

Lemma handler_registered_after_exit_is_never_called_witness :
  ∃ st' tr,
    (callExitHandlers ;; registerExitHandler 9%N 0%N ;; callExitHandlers) (ExitState_new 2)
    = Returns (tt, st', tr)
    ∧ exitHandlers st' !! 0 = Some [9%N]
    ∧ handlersCalled tr = [].
Proof.
  destruct (handler_registered_after_exit_is_never_called 9%N 0%N (ExitState_new 2)
              eq_refl eq_refl) as (st' & tr & v & Hrun & Hv & Hreg & Hcalled & _).
  exists st', tr. split; [exact Hrun|]. split; [|exact Hcalled].
  injection Hv as <-. exact Hreg.
Defined.

Lemma waitsOf_app t1 t2 : waitsOf (t1 ++ t2) = waitsOf t1 + waitsOf t2.
Proof.
  induction t1 as [|e t1 IH]; [reflexivity|].
  destruct e; simpl; rewrite IH; reflexivity.
Qed.

Lemma waitsOf_replicate k : waitsOf (replicate k Wait) = k.
Proof. induction k as [|k IH]; simpl; [reflexivity | now rewrite IH]. Qed.

(** A wake-up with no producer call leaves the scheduler as it was. *)
Lemma nonemptyCond_wait_spurious s :
  _lockPushes s = true → nonemptyCond_wait [] s = Returns (tt, s, [Wait]).
Proof. destruct s as [q pw bs lp apl]; simpl. intros ->. reflexivity. Qed.

Lemma waitWhileEmpty_spurious k evt later : ∀ s,
  _lockPushes s = true → eventQueue s = [] →
  waitWhileEmpty (replicate k [] ++ [CallQueue evt] :: later) s
  = Returns (tt, set_eventQueue [evt] s, replicate k Wait ++ [Wait; Insert evt; NotifyOne]).
Proof.
  induction k as [|k IH]; intros s Hl Hq; rewrite waitWhileEmpty_eq, Hq; cbn [replicate app].
  - assert (Hw : nonemptyCond_wait [CallQueue evt] s
                 = Returns (tt, set_eventQueue [evt] s, [Wait; Insert evt; NotifyOne])).
    { destruct s as [q pw bs lp apl]; simpl in *; subst.
      unfold nonemptyCond_wait, runProducers, callProducer. unfold_M. simpl.
      rewrite queue_unlocked by reflexivity. reflexivity. }
    rewrite (bind_Returns _ _ _ _ _ _ Hw).
    rewrite (waitWhileEmpty_nonempty later _ evt []) by reflexivity.
    reflexivity.
  - rewrite (bind_Returns _ _ _ _ _ _ (nonemptyCond_wait_spurious s Hl)).
    rewrite (IH s Hl Hq). reflexivity.
Qed.

(** X12.  The wait of [nextEvent] is a loop on the emptiness of the queue.  A
    consumer that finds the queue empty goes back to waiting after every
    wake-up that brings no event, however many there are, and hands out the
    first event a producer queues; it waits once per wake-up without an event
    and once more for the event. *)
Theorem nextEvent_tolerates_spurious_wakeups k evt later s :
  lockConsistent s → eventQueue s = [] →
  ∃ s' tr,
    nextEvent (replicate k [] ++ [CallQueue evt] :: later) s = Returns (evt, s', tr)
    ∧ waitsOf tr = S k
    ∧ insertsOf tr = evt :: eventQueue s'.
Proof.
  intros Hc Hq.
  pose proof (waitWhileEmpty_spurious k evt later (set_lockPushes true s) eq_refl Hq)
    as Hwait.
  pose proof (nextEvent_after_wait _ s _ _ evt [] Hc Hwait eq_refl) as Hnext.
  eexists _, _. split; [exact Hnext|].
  assert (Hun : ∀ b : bool, (if b then [] else [UnlockPushes]) = []
                            ∨ (if b then [] else [UnlockPushes]) = [UnlockPushes])
    by (intros []; auto).
  assert (Hlk : ∀ b : bool, (if b then [] else [LockPushes]) = []
                            ∨ (if b then [] else [LockPushes]) = [LockPushes])
    by (intros []; auto).
  assert (Hwi : ∀ l, waitsOf (Insert <$> l) = 0)
    by (induction l; simpl; auto).
  cbn [eventQueue]. rewrite !waitsOf_app, !insertsOf_app, waitsOf_replicate, Hwi.
  rewrite insertsOf_Insert.
  assert (Hir : insertsOf (replicate k Wait) = [])
    by (clear; induction k; simpl; auto).
  rewrite Hir.
  destruct (Hun (negb (N.of_nat (length ([] ++ regenerated
              (pwmInfo (set_eventQueue [evt] (set_lockPushes true s))) evt))
              <? bufferSize (set_eventQueue [evt] (set_lockPushes true s)))%N))
    as [-> | ->];
    destruct (Hlk (_arePushesLocked s)) as [-> | ->]; simpl; rewrite ?app_nil_r;
    split; auto; lia.
Qed.

Lemma nextEvent_tolerates_spurious_wakeups_witness :
  ∃ s' tr,
    nextEvent [[]; []; [CallQueue S1_first]] (Scheduler_new 512)
    = Returns (S1_first, s', tr)
    ∧ waitsOf tr = 3.
Proof.
  destruct (nextEvent_tolerates_spurious_wakeups 2 S1_first [] (Scheduler_new 512)
              eq_refl eq_refl) as (s' & tr & Hret & Hwaits & _).
  exists s', tr. split; [exact Hret | exact Hwaits].
Defined.

(** X13.  [setBufferSize] and [getBufferSize] take no lock: they return even
    while the consumer holds the mutex, and [getBufferSize] gives back what
    was set.  A new size does not release producers that are held back:
    [queue] keeps waiting until the next [nextEvent], which decides with the
    new size. *)
Theorem setBufferSize_applies_at_next_nextEvent s size :
  (setBufferSize size ;; getBufferSize) s = Returns (size, set_bufferSize size s, [])
  ∧ (_lockPushes s = true → ∀ e, (setBufferSize size ;; queue e) s = Blocks)
  ∧ (lockConsistent s → ∀ evt rest, eventQueue s = evt :: rest →
     ∃ s' tr,
       (setBufferSize size ;; nextEvent []) s = Returns (evt, s', tr)
       ∧ bufferSize s' = size
       ∧ ((N.of_nat (length (eventQueue s')) < size)%N → _lockPushes s' = false)
       ∧ ((size ≤ N.of_nat (length (eventQueue s')))%N → _lockPushes s' = true)).
Proof.
  split; [reflexivity|]. split.
  - intros Hl e.
    rewrite (bind_Returns _ _ s tt (set_bufferSize size s) []) by reflexivity.
    now rewrite queue_locked.
  - intros Hc evt rest Hq.
    rewrite (bind_Returns _ _ s tt (set_bufferSize size s) []) by reflexivity.
    rewrite (nextEvent_after_wait [] (set_bufferSize size s)
               (set_lockPushes true (set_bufferSize size s)) [] evt rest Hc
               (waitWhileEmpty_nonempty []
                  (set_lockPushes true (set_bufferSize size s)) evt rest Hq) Hq).
    eexists _, _. split; [reflexivity|]. cbn [bufferSize eventQueue _lockPushes].
    simpl bufferSize. split; [reflexivity|]. split.
    + intros Hlt. apply N.ltb_lt in Hlt. now rewrite Hlt.
    + intros Hge. apply N.ltb_ge in Hge. now rewrite Hge.
Qed.

Lemma setBufferSize_applies_at_next_nextEvent_witness :
  (setBufferSize 9 ;; queue S1_first)
    (set_lockPushes true (set_arePushesLocked true S2_scheduler))
  = Blocks
  ∧ ∃ s' tr,
      (setBufferSize 1 ;; nextEvent []) S2_scheduler
      = Returns (mkEvent t0 5%N StepForward, s', tr)
      ∧ bufferSize s' = 1%N.
Proof.
  destruct (setBufferSize_applies_at_next_nextEvent
              (set_lockPushes true (set_arePushesLocked true S2_scheduler)) 9)
    as (_ & Hheld & _).
  destruct (setBufferSize_applies_at_next_nextEvent S2_scheduler 1) as (_ & _ & Hnext).
  split; [apply Hheld; reflexivity|].
  destruct (Hnext eq_refl (mkEvent t0 5%N StepForward) [] eq_refl)
    as (s' & tr & Hret & Hsize & _).
  exists s', tr. split; [exact Hret | exact Hsize].
Defined.

(** X14.  [lastSchedTime] reads the deadline of the event stored last,
    whoever stored it.  Right after [queue(evt)] it returns the deadline of
    [evt].  After a [nextEvent] that has regenerated a PWM edge and released
    the mutex, it returns the deadline of that edge, whatever the producers
    have queued before. *)
Theorem lastSchedTime_reads_last_insertion s evt now :
  (_lockPushes s = false →
   (queue evt ;; lastSchedTime now) s
   = Returns (time evt, set_eventQueue (eventQueue s ++ [evt]) s, queueEffects evt))
  ∧ (lockConsistent s → ∀ front rest, eventQueue s = front :: rest →
     halfPeriod (pwmInfo s (stepperId front)) (direction front) ≠ 0%N →
     (N.of_nat (S (length rest)) < bufferSize s)%N →
     ∃ s' tr,
       nextEvent [] s = Returns (front, s', tr)
       ∧ lastSchedTime now s'
         = Returns (timespecAddNano (time front)
                      (halfPeriod (pwmInfo s (stepperId front)) (direction front)),
                    s', [])).
Proof.
  split.
  - intros Hl. rewrite (bind_Returns _ _ _ _ _ _ (queue_unlocked evt s Hl)).
    rewrite lastSchedTime_eq. simpl. rewrite Hl, last_snoc. reflexivity.
  - intros Hc front rest Hq Hhalf Hsize.
    pose proof (nextEvent_after_wait [] s (set_lockPushes true s) [] front rest Hc
                  (waitWhileEmpty_nonempty [] (set_lockPushes true s) front rest Hq) Hq)
      as Hnext.
    cbn zeta in Hnext. cbn [pwmInfo bufferSize set_lockPushes] in Hnext.
    rewrite regenerated_halfPeriod in Hnext.
    apply N.eqb_neq in Hhalf. rewrite Hhalf in Hnext.
    rewrite length_app in Hnext. cbn [length] in Hnext.
    replace (length rest + 1) with (S (length rest)) in Hnext by lia.
    apply N.ltb_lt in Hsize. rewrite Hsize in Hnext. cbn [negb] in Hnext.
    eexists _, _. split; [exact Hnext|].
    rewrite lastSchedTime_eq. cbn [_lockPushes eventQueue]. rewrite last_snoc.
    reflexivity.
Qed.

Lemma lastSchedTime_reads_last_insertion_witness :
  (queue S1_second ;; lastSchedTime t0) S1_in_order
  = Returns (time S1_second, set_eventQueue (eventQueue S1_in_order ++ [S1_second]) S1_in_order,
             queueEffects S1_second)
  ∧ ∃ s' tr,
      nextEvent [] S2_scheduler = Returns (mkEvent t0 5%N StepForward, s', tr)
      ∧ lastSchedTime t0 s' = Returns (timespecAddNano t0 1000000, s', []).
Proof.
  destruct (lastSchedTime_reads_last_insertion S1_in_order S1_second t0) as [Hqueue _].
  destruct (lastSchedTime_reads_last_insertion S2_scheduler S1_second t0) as [_ Hregen].
  split; [apply Hqueue; reflexivity|].
  apply (Hregen eq_refl (mkEvent t0 5%N StepForward) [] eq_refl);
    [discriminate | reflexivity].
Defined.

(** * Further properties of the exit path *)

Lemma processHandlersCalled_SchedulerEffect tr :
  processHandlersCalled (SchedulerEffect <$> tr) = handlersCalled tr.
Proof.
  induction tr as [|e tr IH]; [reflexivity|].
  destruct e; simpl; try f_equal; exact IH.
Qed.

(** Once [isExiting] is set, no [atexit] function calls a handler. *)
Lemma runAtexit_exiting fns : ∀ st,
  isExiting st = true → runAtexit fns st = Returns (tt, st, []).
Proof.
  induction fns as [|[] fns IH]; intros st He; [reflexivity|].
  cbn [runAtexit].
  rewrite (bind_Returns _ _ _ _ _ _ (callExitHandlers_again st He)).
  now rewrite (IH st He).
Qed.

(** However many times [callExitHandlers] was given to [atexit], the handlers
    are called by the first of them only. *)
Lemma runAtexit_first fns st :
  isExiting st = false →
  runAtexit (AtexitCallExitHandlers :: fns) st
  = Returns (tt, {| exitHandlers := exitHandlers st; isExiting := true |},
             Log LogInfo "Exiting\n" [] :: (CallHandler <$> concat (exitHandlers st))).
Proof.
  intros He. cbn [runAtexit].
  rewrite (bind_Returns _ _ _ _ _ _ (callExitHandlers_first st He)).
  rewrite runAtexit_exiting by reflexivity. now rewrite app_nil_r.
Qed.

Lemma std_exit_configured status p :
  isExiting (exitState p) = false →
  std_exit status (configureExitHandlers p)
  = (Exited status,
     {| exitHandlers := exitHandlers (exitState p); isExiting := true |},
     SchedulerEffect <$> (Log LogInfo "Exiting\n" []
                            :: (CallHandler <$> concat (exitHandlers (exitState p))))).
Proof.
  intros He. unfold std_exit. cbn [configureExitHandlers sigaction atexitFunctions exitState].
  rewrite reverse_app. cbn [reverse app]. change (reverse [AtexitCallExitHandlers])
    with [AtexitCallExitHandlers]. cbn [app].
  now rewrite (runAtexit_first _ _ He).
Qed.

(** X15.  After [configureExitHandlers], an interrupt (SIGINT), a stop
    request (SIGTSTP) and an abort (SIGABRT) print the number of the signal,
    and a segmentation fault prints the faulting address; each then ends the
    process through [exit(1)], which calls every registered exit handler
    once, in the order of the levels, however many times
    [configureExitHandlers] was called before. *)
Theorem handled_signal_runs_exit_handlers_once p sig si_addr :
  isExiting (exitState p) = false →
  (sig = SIGINT ∨ sig = SIGTSTP ∨ sig = SIGABRT →
   ∃ tr,
     deliver sig si_addr (configureExitHandlers p)
     = (Exited 1, {| exitHandlers := exitHandlers (exitState p); isExiting := true |},
        Printf "Caught signal %d\n" [sig] :: tr)
     ∧ processHandlersCalled tr = concat (exitHandlers (exitState p)))
  ∧ (∃ tr,
       deliver SIGSEGV si_addr (configureExitHandlers p)
       = (Exited 1, {| exitHandlers := exitHandlers (exitState p); isExiting := true |},
          Printf "Caught segfault at address %p\n" [si_addr] :: tr)
       ∧ processHandlersCalled tr = concat (exitHandlers (exitState p))).
Proof.
  intros He.
  assert (Hcalled : processHandlersCalled
                      (SchedulerEffect <$> (Log LogInfo "Exiting\n" []
                         :: (CallHandler <$> concat (exitHandlers (exitState p)))))
                    = concat (exitHandlers (exitState p))).
  { rewrite processHandlersCalled_SchedulerEffect. simpl.
    apply handlersCalled_CallHandler. }
  split.
  - intros Hsig. eexists. split; [|exact Hcalled].
    unfold deliver.
    assert (Hd : dispositions (configureExitHandlers p) sig = SigHandled CtrlCOrZHandler).
    { destruct Hsig as [-> | [-> | ->]]; reflexivity. }
    rewrite Hd. unfold ctrlCOrZHandler. now rewrite (std_exit_configured 1 p He).
  - eexists. split; [|exact Hcalled].
    unfold deliver.
    change (dispositions (configureExitHandlers p) SIGSEGV)
      with (SigHandled SegfaultHandler).
    unfold segfaultHandler. now rewrite (std_exit_configured 1 p He).
Qed.

Lemma handled_signal_runs_exit_handlers_once_witness :
  ∃ tr,
    deliver SIGINT 0
      (configureExitHandlers (configureExitHandlers
         (Process_new {| exitHandlers := [[1; 2]; [3]]%N; isExiting := false |})))
    = (Exited 1, {| exitHandlers := [[1; 2]; [3]]%N; isExiting := true |},
       Printf "Caught signal %d\n" [SIGINT] :: tr)
    ∧ processHandlersCalled tr = [1; 2; 3]%N.
Proof.
  destruct (handled_signal_runs_exit_handlers_once
              (configureExitHandlers
                 (Process_new {| exitHandlers := [[1; 2]; [3]]%N; isExiting := false |}))
              SIGINT 0 eq_refl) as [Hint _].
  destruct (Hint (or_introl eq_refl)) as (tr & Hdeliver & Hcalled).
  exists tr. split; [exact Hdeliver | exact Hcalled].
Defined.

(** X16.  [configureExitHandlers] installs handlers for SIGINT, SIGTSTP,
    SIGABRT and SIGSEGV only.  Any other signal keeps the disposition it had;
    left at its default, it ends in the system's default action and no exit
    handler is called. *)
Theorem other_signals_bypass_exit_handlers p sig si_addr :
  sig ≠ SIGINT → sig ≠ SIGTSTP → sig ≠ SIGABRT → sig ≠ SIGSEGV →
  dispositions (configureExitHandlers p) sig = dispositions p sig
  ∧ (dispositions p sig = SigDefault →
     deliver sig si_addr (configureExitHandlers p) = (DefaultAction sig, exitState p, [])).
Proof.
  intros H1 H2 H3 H4.
  assert (Hd : dispositions (configureExitHandlers p) sig = dispositions p sig).
  { cbn [configureExitHandlers sigaction dispositions].
    apply Z.eqb_neq in H1, H2, H3, H4. now rewrite H1, H2, H3, H4. }
  split; [exact Hd|]. intros Hdef. unfold deliver. rewrite Hd, Hdef. reflexivity.
Qed.

Lemma other_signals_bypass_exit_handlers_witness :
  deliver 15 0
    (configureExitHandlers
       (Process_new {| exitHandlers := [[1; 2]; [3]]%N; isExiting := false |}))
  = (DefaultAction 15, {| exitHandlers := [[1; 2]; [3]]%N; isExiting := false |}, []).
Proof.
  destruct (other_signals_bypass_exit_handlers
              (Process_new {| exitHandlers := [[1; 2]; [3]]%N; isExiting := false |})
              15 0) as [_ Hdefault]; try discriminate.
  apply Hdefault. reflexivity.
Defined.

(** X17.  The exit handlers are called at [exit] only through the [atexit]
    function that [configureExitHandlers] registers.  In a process that has
    registered handlers and never called [configureExitHandlers], [exit]
    calls none of them; after [configureExitHandlers], [exit] calls each of
    them once and keeps its status. *)
Theorem exit_runs_handlers_only_when_configured st status :
  std_exit status (Process_new st) = (Exited status, st, [])
  ∧ (isExiting st = false →
     ∃ tr,
       std_exit status (configureExitHandlers (Process_new st))
       = (Exited status, {| exitHandlers := exitHandlers st; isExiting := true |}, tr)
       ∧ processHandlersCalled tr = concat (exitHandlers st)).
Proof.
  split; [reflexivity|]. intros He. eexists.
  split; [apply (std_exit_configured status (Process_new st) He)|].
  rewrite processHandlersCalled_SchedulerEffect. simpl.
  apply handlersCalled_CallHandler.
Qed.

Lemma exit_runs_handlers_only_when_configured_witness :
  ∃ tr,
    std_exit 0 (configureExitHandlers
                  (Process_new {| exitHandlers := [[1; 2]; [3]]%N; isExiting := false |}))
    = (Exited 0, {| exitHandlers := [[1; 2]; [3]]%N; isExiting := true |}, tr)
    ∧ processHandlersCalled tr = [1; 2; 3]%N.
Proof.
  destruct (exit_runs_handlers_only_when_configured
              {| exitHandlers := [[1; 2]; [3]]%N; isExiting := false |} 0) as [_ Hconf].
  destruct (Hconf eq_refl) as (tr & Hexit & Hcalled).
  exists tr. split; [exact Hexit | exact Hcalled].
Defined.
